(** * The works catalogue of the artist's portfolio site

    A shallow embedding of the catalogue logic of the works page
    ([buildWorks], the carousel of [LObra], the geocoder of [MapView],
    [monthToIndex], the timeline data of [TimelineView] and the month
    buckets of [CalendarView]) together with the properties the
    specification states about them.

    Conventions of the embedding:
    - a JS [number] that the code only uses as an integer (a year, a month,
      an index, a comparator result) is a [Z]; [NaN] and [-Infinity], which
      the work comparator tells apart from finite years, are constructors
      of [num];
    - a JS string is a [string] of bytes; [toLowerCase] and [trim] are the
      platform functions on their ASCII range;
    - [String.prototype.localeCompare] is the platform's collation and is a
      parameter of the development;
    - a JS object used as a record of entries, and a JS [Map], are
      association lists in insertion order ([Obj], [Js.get], [Js.set]); the geocode
      cache and the month-name table, whose order is never observed, are
      [gmap]s. Property lookups see own properties only. *)

From Stdlib Require Import ZArith List Lia Bool Ascii String.
From Stdlib Require Import Sorting.Permutation Sorting.Sorted.
From stdpp Require Import base strings gmap list.
Import ListNotations.

Local Open Scope string_scope.
Local Open Scope Z_scope.

(** ** Platform primitives *)

Module Js.

(** [Array.prototype.sort(cmp)]: the language requires a stable sort; with
    a consistent comparator the result is the one of this insertion sort,
    where [a] stays before [b] unless [cmp a b > 0]. *)
Section Sort.
Context {A : Type} (cmp : A -> A -> Z).

Fixpoint insert (x : A) (l : list A) : list A :=
  match l with
  | [] => [x]
  | y :: l' => if cmp x y <=? 0 then x :: y :: l' else y :: insert x l'
  end.

Fixpoint sort (l : list A) : list A :=
  match l with
  | [] => []
  | x :: l' => insert x (sort l')
  end.
End Sort.

(** [s.startsWith(p)] *)
Definition startsWith (p s : string) : bool := String.prefix p s.

(** The rest of [s] after the literal prefix [p], when [s] starts with it. *)
Fixpoint stripPrefix (p s : string) : option string :=
  match p, s with
  | EmptyString, _ => Some s
  | String a p', String b s' => if Ascii.eqb a b then stripPrefix p' s' else None
  | String _ _, EmptyString => None
  end.

(** The longest prefix without ['/'] and what follows it: one greedy
    [[^\/]*] of a regular expression. *)
Fixpoint spanNoSlash (s : string) : string * string :=
  match s with
  | EmptyString => (EmptyString, EmptyString)
  | String c r =>
      if Ascii.eqb c "/" then (EmptyString, s)
      else let (a, b) := spanNoSlash r in (String c a, b)
  end.

(** [s.split(sep)] for a one-character separator. *)
Fixpoint split (sep : ascii) (s : string) : list string :=
  match s with
  | EmptyString => [EmptyString]
  | String c r =>
      if Ascii.eqb c sep then EmptyString :: split sep r
      else match split sep r with
           | h :: t => String c h :: t
           | [] => [String c EmptyString]
           end
  end.

Definition lowerChar (c : ascii) : ascii :=
  let n := nat_of_ascii c in
  if ((65 <=? n) && (n <=? 90))%nat then ascii_of_nat (n + 32) else c.

(** [s.toLowerCase()] *)
Fixpoint toLowerCase (s : string) : string :=
  match s with
  | EmptyString => EmptyString
  | String c r => String (lowerChar c) (toLowerCase r)
  end.

(** White space and line terminators (tab, LF, VT, FF, CR, space). *)
Definition isSpace (c : ascii) : bool :=
  let n := nat_of_ascii c in
  ((9 <=? n) && (n <=? 13) || (n =? 32))%nat.

Fixpoint trimStart (s : string) : string :=
  match s with
  | EmptyString => EmptyString
  | String c r => if isSpace c then trimStart r else s
  end.

Fixpoint trimEnd (s : string) : string :=
  match s with
  | EmptyString => EmptyString
  | String c r =>
      match trimEnd r with
      | EmptyString => if isSpace c then EmptyString else String c EmptyString
      | r' => String c r'
      end
  end.

(** [s.trim()] *)
Definition trim (s : string) : string := trimEnd (trimStart s).

Definition digitOf (c : ascii) : option Z :=
  let n := nat_of_ascii c in
  if ((48 <=? n) && (n <=? 57))%nat then Some (Z.of_nat n - 48) else None.

(** The decimal digits at the head of [s], read from accumulator [acc];
    [None] when there is no digit at all. *)
Fixpoint readDigits (acc : option Z) (s : string) : option Z :=
  match s with
  | EmptyString => acc
  | String c r =>
      match digitOf c with
      | Some d => readDigits (Some (10 * default 0 acc + d)) r
      | None => acc
      end
  end.

(** [parseInt(s, 10)]; [None] is [NaN]. *)
Definition parseInt (s : string) : option Z :=
  match trimStart s with
  | String "-" r => Z.opp <$> readDigits None r
  | String "+" r => readDigits None r
  | r => readDigits None r
  end.

(** [l.indexOf(x)], [-1] when [x] is not an element. *)
Fixpoint indexOf (l : list string) (x : string) : Z :=
  match l with
  | [] => -1
  | y :: l' =>
      if String.eqb y x then 0
      else let i := indexOf l' x in if i =? -1 then -1 else i + 1
  end.

(** Truthiness of a string and of an optional string. *)
Definition truthy (s : string) : bool := negb (String.eqb s "").
Definition truthyOpt (o : option string) : bool :=
  match o with Some s => truthy s | None => false end.

(** Insertion-ordered association lists: a JS [Map], and the own entries
    of a JS object. *)
Section OMap.
Context {K V : Type} (eqb : K -> K -> bool).

Fixpoint get (k : K) (m : list (K * V)) : option V :=
  match m with
  | [] => None
  | (k', v) :: m' => if eqb k' k then Some v else get k m'
  end.

(** [m[k] = v]: an existing key keeps its position, a new one goes last. *)
Fixpoint set (k : K) (v : V) (m : list (K * V)) : list (K * V) :=
  match m with
  | [] => [(k, v)]
  | (k', v') :: m' => if eqb k' k then (k', v) :: m' else (k', v') :: set k v m'
  end.
End OMap.

(** A canonical array index: ["0"], or digits without a leading zero,
    below [2^32 - 1]. An object enumerates such keys first, in ascending
    numeric order, and its other string keys after them in insertion
    order. *)
Fixpoint allDigits (s : string) : bool :=
  match s with
  | EmptyString => true
  | String c r => match digitOf c with Some _ => allDigits r | None => false end
  end.

Definition arrayIndex (s : string) : option Z :=
  match s with
  | EmptyString => None
  | String c r =>
      if allDigits s && (negb (Ascii.eqb c "0") || String.eqb r "")
      then match readDigits None s with
           | Some n => if n <? 4294967295 then Some n else None
           | None => None
           end
      else None
  end.

Definition isIndexKey {V : Type} (e : string * V) : bool :=
  match arrayIndex e.1 with Some _ => true | None => false end.

Definition cmpIndexKey {V : Type} (a b : string * V) : Z :=
  default 0 (arrayIndex a.1) - default 0 (arrayIndex b.1).

(** [Object.entries(o)] *)
Definition entries {V : Type} (o : list (string * V)) : list (string * V) :=
  sort cmpIndexKey (List.filter isIndexKey o)
  ++ List.filter (fun e => negb (isIndexKey e)) o.

(** [Object.values(o)] *)
Definition values {V : Type} (o : list (string * V)) : list V :=
  map snd (entries o).

End Js.

Abbreviation Obj V := (list (string * V)).
Abbreviation objGet := (Js.get String.eqb).
Abbreviation objSet := (Js.set String.eqb).

(** ** Data model *)

(** [year?: number | string] and [month?: string | number] of [WorkMeta]. *)
Inductive YearField := YearAbsent | YearNumber (n : Z) | YearString (s : string).
Inductive MonthField := MonthAbsent | MonthNumber (n : Z) | MonthString (s : string).

(** [nom] is empty when the metadata record has no name. *)
Record WorkMeta := {
  nom : string;
  city : option string;
  address : option string;
  text_catala : option string;
  text_angles : option string;
  year : YearField;
  month : MonthField;
}.

Record WorkItem := {
  slug : string;
  folderPath : string;
  meta : WorkMeta;
  mainImageUrl : option string;
  main2ImageUrl : option string;
  albumImageUrls : list string;
}.

(** The four eager globs of [buildWorks]: module path to metadata or URL. *)
Record Inputs := {
  jsonModules : Obj WorkMeta;
  mainImageModules : Obj string;
  main2ImageModules : Obj string;
  albumImageModules : Obj string;
}.

(** A finite number, [NaN] or [-Infinity]: the values of [ay] and [by].
    [Number.isFinite] holds of [Fin] alone. *)
Inductive num := Fin (n : Z) | NaN | NegInfinity.

(** ** The catalogue loader *)

(** [path.match(/^\/pages\/([^\/]+)\//)], the captured folder. *)
Definition folderMatch (path : string) : option string :=
  match Js.stripPrefix "/pages/" path with
  | Some r =>
      match Js.spanNoSlash r with
      | (EmptyString, _) => None
      | (folder, String "/" _) => Some folder
      | _ => None
      end
  | None => None
  end.

(** [path.match(/^\/pages\/([^\/]+)\/([^\/]+)$/)], folder and file name. *)
Definition albumMatch (path : string) : option (string * string) :=
  match Js.stripPrefix "/pages/" path with
  | Some r =>
      match Js.spanNoSlash r with
      | (EmptyString, _) => None
      | (folder, String "/" r2) =>
          match Js.spanNoSlash r2 with
          | (EmptyString, _) => None
          | (file, EmptyString) => Some (folder, file)
          | _ => None
          end
      | _ => None
      end
  | None => None
  end.

Definition placeholderMeta (folder : string) : WorkMeta :=
  {| nom := folder; city := None; address := None; text_catala := None;
     text_angles := None; year := YearAbsent; month := MonthAbsent |}.

Definition newItem (folder : string) (m : WorkMeta) (main main2 : option string)
    (album : list string) : WorkItem :=
  {| slug := folder; folderPath := "/pages/" +:+ folder; meta := m;
     mainImageUrl := main; main2ImageUrl := main2; albumImageUrls := album |}.

Definition withMain (w : WorkItem) (u : option string) : WorkItem :=
  {| slug := slug w; folderPath := folderPath w; meta := meta w;
     mainImageUrl := u; main2ImageUrl := main2ImageUrl w;
     albumImageUrls := albumImageUrls w |}.

Definition withMain2 (w : WorkItem) (u : option string) : WorkItem :=
  {| slug := slug w; folderPath := folderPath w; meta := meta w;
     mainImageUrl := mainImageUrl w; main2ImageUrl := u;
     albumImageUrls := albumImageUrls w |}.

Definition withAlbum (w : WorkItem) (l : list string) : WorkItem :=
  {| slug := slug w; folderPath := folderPath w; meta := meta w;
     mainImageUrl := mainImageUrl w; main2ImageUrl := main2ImageUrl w;
     albumImageUrls := l |}.

(** Base items from the JSON files. *)
Definition addJson (wbf : Obj WorkItem) (e : string * WorkMeta) : Obj WorkItem :=
  match folderMatch e.1 with
  | None => wbf
  | Some folder => objSet folder (newItem folder e.2 None None []) wbf
  end.

(** Attach main image URLs, with a placeholder item if the JSON is missing. *)
Definition addMain (wbf : Obj WorkItem) (e : string * string) : Obj WorkItem :=
  match folderMatch e.1 with
  | None => wbf
  | Some folder =>
      match objGet folder wbf with
      | None => objSet folder (newItem folder (placeholderMeta folder) (Some e.2) None []) wbf
      | Some w => objSet folder (withMain w (Some e.2)) wbf
      end
  end.

(** Attach main2 image URLs. *)
Definition addMain2 (wbf : Obj WorkItem) (e : string * string) : Obj WorkItem :=
  match folderMatch e.1 with
  | None => wbf
  | Some folder =>
      match objGet folder wbf with
      | None => objSet folder (newItem folder (placeholderMeta folder) None (Some e.2) []) wbf
      | Some w => objSet folder (withMain2 w (Some e.2)) wbf
      end
  end.

(** The album of each folder: every URL tagged with its lower-cased file
    name, [url + `#${fileName}`], in the order of the glob. *)
Definition tagUrl (url fileName : string) : string := url +:+ "#" +:+ fileName.

Definition pushAlbum (abf : Obj (list string)) (e : string * string) : Obj (list string) :=
  match albumMatch e.1 with
  | None => abf
  | Some (folder, file) =>
      objSet folder (default [] (objGet folder abf) ++ [tagUrl e.2 (Js.toLowerCase file)])%list abf
  end.

Definition albumByFolder (inp : Inputs) : Obj (list string) :=
  fold_left pushAlbum (Js.entries (albumImageModules inp)) [].

(** [a.split('#')[1] ?? ''] and [u.split('#')[0]]. *)
Definition tagOf (a : string) : string := nth 1 (Js.split "#" a) "".
Definition untag (u : string) : string := nth 0 (Js.split "#" u) "".

Definition isMain (an : string) : bool := Js.startsWith "main." an.

Section Catalogue.
(** [a.localeCompare(b)]: negative, zero or positive. *)
Variable localeCompare : string -> string -> Z.

(** The comparator of the album sort, on tagged URLs. *)
Definition cmpAlbum (a b : string) : Z :=
  let an := tagOf a in
  let bn := tagOf b in
  let aIsMain := isMain an in
  let bIsMain := isMain bn in
  if aIsMain && negb bIsMain then -1
  else if negb aIsMain && bIsMain then 1
  else localeCompare an bn.

Definition sortAlbum (urlsWithTags : list string) : list string :=
  map untag (Js.sort cmpAlbum urlsWithTags).

(** One folder of the second [forEach] over [albumByFolder]. *)
Definition attachAlbum (wbf : Obj WorkItem) (e : string * list string) : Obj WorkItem :=
  let folder := e.1 in
  let sorted := sortAlbum e.2 in
  match objGet folder wbf with
  | None => objSet folder (newItem folder (placeholderMeta folder) None None sorted) wbf
  | Some w =>
      let w1 := withAlbum w sorted in
      let w2 :=
        if negb (Js.truthyOpt (mainImageUrl w1)) && (0 <? Z.of_nat (length sorted))
        then withMain w1 (head sorted) else w1 in
      objSet folder w2 wbf
  end.

(** [worksByFolder] once the four globs are merged. *)
Definition worksByFolder (inp : Inputs) : Obj WorkItem :=
  let wbf1 := fold_left addJson (Js.entries (jsonModules inp)) [] in
  let wbf2 := fold_left addMain (Js.entries (mainImageModules inp)) wbf1 in
  let wbf3 := fold_left addMain2 (Js.entries (main2ImageModules inp)) wbf2 in
  fold_left attachAlbum (Js.entries (albumByFolder inp)) wbf3.

(** The filter: meta name, or main image, or a non-empty album. *)
Definition keep (w : WorkItem) : bool :=
  Js.truthy (nom (meta w)) || Js.truthyOpt (mainImageUrl w)
  || (0 <? Z.of_nat (length (albumImageUrls w))).

Definition priorityOrder : list string :=
  ["lleo"; "oliba"; "ovella"; "asparrac"; "somera"; "oliva"].

(** [typeof y === 'string' ? parseInt(y, 10) : y ?? -Infinity] *)
Definition yearOf (y : YearField) : num :=
  match y with
  | YearString s => match Js.parseInt s with Some n => Fin n | None => NaN end
  | YearNumber n => Fin n
  | YearAbsent => NegInfinity
  end.

(** [w.meta.nom || w.slug] *)
Definition nameOf (w : WorkItem) : string :=
  if Js.truthy (nom (meta w)) then nom (meta w) else slug w.

(** The comparator of the final sort. The years are subtracted only when
    [Number.isFinite(ay) && Number.isFinite(by) && ay !== by]. *)
Definition cmpWorks (a b : WorkItem) : Z :=
  let ai := Js.indexOf priorityOrder (slug a) in
  let bi := Js.indexOf priorityOrder (slug b) in
  if negb (ai =? -1) && negb (bi =? -1) then ai - bi
  else if negb (ai =? -1) then -1
  else if negb (bi =? -1) then 1
  else
    match yearOf (year (meta a)), yearOf (year (meta b)) with
    | Fin ay, Fin by_ =>
        if negb (ay =? by_) then by_ - ay
        else localeCompare (nameOf a) (nameOf b)
    | _, _ => localeCompare (nameOf a) (nameOf b)
    end.

Definition buildWorks (inp : Inputs) : list WorkItem :=
  Js.sort cmpWorks (List.filter keep (Js.values (worksByFolder inp))).
End Catalogue.

(** ** Timeline and calendar *)

(** The month names [monthToIndex] knows, in four languages. *)
Definition monthNames : list (string * Z) :=
  [ ("january", 0); ("jan", 0); ("gener", 0); ("ene", 0);
    ("february", 1); ("feb", 1); ("febrer", 1);
    ("march", 2); ("mar", 2); ("març", 2); ("marzo", 2);
    ("april", 3); ("apr", 3); ("abril", 3);
    ("may", 4); ("mai", 4); ("mayo", 4); ("maig", 4);
    ("june", 5); ("jun", 5); ("juny", 5); ("junio", 5);
    ("july", 6); ("jul", 6); ("juliol", 6); ("julio", 6);
    ("august", 7); ("aug", 7); ("agost", 7);
    ("september", 8); ("sep", 8); ("setembre", 8);
    ("october", 9); ("oct", 9); ("octubre", 9);
    ("november", 10); ("nov", 10); ("novembre", 10);
    ("december", 11); ("dec", 11); ("desembre", 11); ("diciembre", 11) ].

Definition monthTable : gmap string Z := list_to_map monthNames.

(** [monthToIndex(m)]; [None] is [null]. *)
Definition monthToIndex (m : MonthField) : option Z :=
  match m with
  | MonthAbsent => None
  | MonthNumber n => Some (Z.min 11 (Z.max 0 (n - 1)))
  | MonthString s => monthTable !! Js.toLowerCase (Js.trim s)
  end.

(** The year both views group by: [parseInt] of a string, the number
    otherwise; a work is skipped when [!year || isNaN(year)]. *)
Definition datedYear (w : WorkItem) : option Z :=
  match year (meta w) with
  | YearAbsent => None
  | YearNumber n => if n =? 0 then None else Some n
  | YearString s =>
      match Js.parseInt s with
      | Some n => if n =? 0 then None else Some n
      | None => None
      end
  end.

Abbreviation zGet := (Js.get Z.eqb).
Abbreviation zSet := (Js.set Z.eqb).

Module Timeline.

Record TimePoint := {
  tp_year : Z;
  tp_month : Z;
  tp_works : list WorkItem;
  tp_timestamp : Z;
}.

(** [Map<number, Map<number, WorkItem[]>>] *)
Abbreviation YearMap := (list (Z * list (Z * list WorkItem))).

(** The month a work is filed under: [monthToIndex(work.meta.month) ?? 0]. *)
Definition monthIndexOf (work : WorkItem) : Z :=
  default 0 (monthToIndex (month (meta work))).

(** One step of [works.forEach] filling [yearMap]. *)
Definition addWork (yearMap : YearMap) (work : WorkItem) : YearMap :=
  match datedYear work with
  | None => yearMap
  | Some y =>
      let monthIndex := monthIndexOf work in
      let monthMap := default [] (zGet y yearMap) in
      let bucket := default [] (zGet monthIndex monthMap) in
      zSet y (zSet monthIndex (bucket ++ [work])%list monthMap) yearMap
  end.

Definition yearMapOf (works : list WorkItem) : YearMap :=
  fold_left addWork works [].

(** [monthMap.get(month) || []] for the month map of [y]. *)
Definition bucket (yearMap : YearMap) (y m : Z) : list WorkItem :=
  default [] (zGet m (default [] (zGet y yearMap))).

(** [for (let month = 0; month < 12; month++)] *)
Definition months : list Z := map Z.of_nat (seq 0 12).

Definition pointsOfYear (yearMap : YearMap) (y : Z) : list TimePoint :=
  map (fun m => {| tp_year := y; tp_month := m; tp_works := bucket yearMap y m;
                   tp_timestamp := y * 12 + m |}) months.

(** The [timelineData] memo. *)
Definition timelineData (works : list WorkItem) : list TimePoint :=
  let yearMap := yearMapOf works in
  let yearsWithWorks := Js.sort (fun a b => b - a) (map fst yearMap) in
  let timePoints := flat_map (pointsOfYear yearMap) yearsWithWorks in
  Js.sort (fun a b => tp_timestamp b - tp_timestamp a) timePoints.

(** The slugs of the work cards the view renders. *)
Definition shown (works : list WorkItem) : list string :=
  flat_map (fun p => map slug (tp_works p)) (timelineData works).

End Timeline.

Module Calendar.

(** One step of [works.forEach] filling [byYear]. *)
Definition addWork (byYear : list (Z * list WorkItem)) (w : WorkItem) :
    list (Z * list WorkItem) :=
  match datedYear w with
  | None => byYear
  | Some y => zSet y (default [] (zGet y byYear) ++ [w])%list byYear
  end.

(** The [groups] memo: years in descending order with their items. *)
Definition groups (works : list WorkItem) : list (Z * list WorkItem) :=
  Js.sort (fun a b => b.1 - a.1) (fold_left addWork works []).








End Calendar.

(** ** The detail drawer and its carousel *)

Module Carousel.

(** The two pieces of state of [LObra] the carousel depends on. *)
Record State := {
  selectedSlug : option string;
  currentImageIndex : Z;
}.

Definition init : State := {| selectedSlug := None; currentImageIndex := 0 |}.

(** [works.find((w) => w.slug === selectedSlug) || null] *)
Definition selected (works : list WorkItem) (st : State) : option WorkItem :=
  match selectedSlug st with
  | Some s => List.find (fun w => String.eqb (slug w) s) works
  | None => None
  end.

(** What the user can do: pick a card, close the drawer (button, backdrop
    or Escape), press an arrow key, click a carousel button. *)
Inductive Event :=
  | Select (s : string)
  | Close
  | ArrowRight
  | ArrowLeft
  | ClickNext
  | ClickPrevious.

(** [setSelectedSlug(s)] followed by the effect that depends on
    [selectedSlug]: it runs, and resets the index, when the value changed. *)
Definition setSelectedSlug (s : option string) (st : State) : State :=
  if decide (s = selectedSlug st) then st
  else {| selectedSlug := s; currentImageIndex := 0 |}.

(** [(i + 1) % n] and [(i - 1 + n) % n]; [%] is the remainder that takes
    the sign of the dividend. *)
Definition next (n i : Z) : Z := Z.rem (i + 1) n.
Definition previous (n i : Z) : Z := Z.rem (i - 1 + n) n.

Definition setCurrentImageIndex (f : Z -> Z) (st : State) : State :=
  {| selectedSlug := selectedSlug st; currentImageIndex := f (currentImageIndex st) |}.

Definition albumLength (w : WorkItem) : Z := Z.of_nat (length (albumImageUrls w)).

(** The key handler is installed while an item is selected and returns
    at once when its album is empty; the two buttons are rendered when the
    album has more than one image. *)
Definition step (works : list WorkItem) (st : State) (ev : Event) : State :=
  match ev with
  | Select s => setSelectedSlug (Some s) st
  | Close => setSelectedSlug None st
  | ArrowRight =>
      match selected works st with
      | Some w => if albumLength w =? 0 then st
                  else setCurrentImageIndex (next (albumLength w)) st
      | None => st
      end
  | ArrowLeft =>
      match selected works st with
      | Some w => if albumLength w =? 0 then st
                  else setCurrentImageIndex (previous (albumLength w)) st
      | None => st
      end
  | ClickNext =>
      match selected works st with
      | Some w => if 1 <? albumLength w
                  then setCurrentImageIndex (next (albumLength w)) st else st
      | None => st
      end
  | ClickPrevious =>
      match selected works st with
      | Some w => if 1 <? albumLength w
                  then setCurrentImageIndex (previous (albumLength w)) st else st
      | None => st
      end
  end.

Definition run (works : list WorkItem) (evs : list Event) : State :=
  fold_left (step works) evs init.

End Carousel.

(** ** The grid and list views *)


(** ** Geocoding for the map view *)

Module Geo.

(** What one request to the lookup service comes to: [fetch] throws, the
    response is not [ok], the body is not a JSON array, or it is the array
    of hits with their [lat] and [lon] strings. *)
Inductive Response :=
  | NetworkError
  | NotOk
  | BadBody
  | Hits (data : list (string * string)).

Section Geocode.
(** Coordinates are floating-point numbers; they are only stored and
    passed on. *)
Variable Num : Type.
Variable parseFloat : string -> Num.

(** The service: its answer to the [n]-th request of the page, for a
    query. *)
Variable fetch : nat -> string -> Response.

Record LatLng := { lat : Num; lng : Num }.

(** The [cache] object of the effect, the blob persisted under
    ['obra-geo-cache-v2'], and the log of the requests sent. *)
Record State := {
  cache : gmap string LatLng;
  storage : gmap string LatLng;
  requests : list string;
}.

(** The effect starts from the persisted blob. *)
Definition start (stored : gmap string LatLng) : State :=
  {| cache := stored; storage := stored; requests := [] |}.

(** [geocode(query)]: [None] is [null]. *)
Definition geocode (query : string) (st : State) : option LatLng * State :=
  match cache st !! query with
  | Some pos => (Some pos, st)
  | None =>
      let sent := (requests st ++ [query])%list in
      match fetch (length (requests st)) query with
      | Hits (hit :: _) =>
          let pos := {| lat := parseFloat hit.1; lng := parseFloat hit.2 |} in
          let cache' := <[query := pos]> (cache st) in
          (Some pos, {| cache := cache'; storage := cache'; requests := sent |})
      | _ => (None, {| cache := cache st; storage := storage st; requests := sent |})
      end
  end.

(** [w.meta.address || w.meta.city || ''] *)
Definition queryOf (w : WorkItem) : string :=
  if Js.truthyOpt (address (meta w)) then default "" (address (meta w))
  else if Js.truthyOpt (city (meta w)) then default "" (city (meta w))
  else "".

Definition addresses (works : list WorkItem) : list (WorkItem * string) :=
  List.filter (fun x => Js.truthy x.2) (map (fun w => (w, queryOf w)) works).

(** The loop of [run]: one lookup after the other, pushing the hits. *)
Fixpoint lookups (addrs : list (WorkItem * string)) (st : State)
    (results : list (WorkItem * LatLng)) : list (WorkItem * LatLng) * State :=
  match addrs with
  | [] => (results, st)
  | a :: rest =>
      let (pos, st') := geocode a.2 st in
      lookups rest st'
        (match pos with Some p => (results ++ [(a.1, p)])%list | None => results end)
  end.

Definition run (works : list WorkItem) (st : State) : list (WorkItem * LatLng) * State :=
  lookups (addresses works) st [].

(** The slugs of the boxes the markers of the map carry. *)
Definition shown (works : list WorkItem) (st : State) : list string :=
  map (fun r => slug r.1) (run works st).1.
End Geocode.

End Geo.

(** ** Instances for the examples *)

(** A collation for the examples: the order of the code units. Every
    collation agrees with it on strings of lower-case ASCII letters. *)
Definition codeUnitCompare (a b : string) : Z :=
  match String.compare a b with Lt => -1 | Eq => 0 | Gt => 1 end.

Definition metaOf (name : string) (y : YearField) (m : MonthField) : WorkMeta :=
  {| nom := name; city := None; address := None; text_catala := None;
     text_angles := None; year := y; month := m |}.

(** Two works outside the priority list: "bou", dated 2020, and "ase",
    without a year. *)
Definition undatedInput : Inputs :=
  {| jsonModules :=
       [ ("/pages/bou/info.json", metaOf "bou" (YearNumber 2020) MonthAbsent);
         ("/pages/ase/info.json", metaOf "ase" YearAbsent MonthAbsent) ];
     mainImageModules := []; main2ImageModules := []; albumImageModules := [] |}.

(** A folder that holds one picture and nothing else. *)
Definition albumOnlyInput : Inputs :=
  {| jsonModules := []; mainImageModules := []; main2ImageModules := [];
     albumImageModules := [ ("/pages/gat/a.jpg", "/assets/a.jpg") ] |}.

(** A folder with its metadata, a main image and two more pictures, and a
    folder with a metadata record that has no name. *)
Definition sampleInput : Inputs :=
  {| jsonModules :=
       [ ("/pages/gat/info.json", metaOf "Gat" (YearString "2021") (MonthString "Maig"));
         ("/pages/buit/info.json", metaOf "" YearAbsent MonthAbsent) ];
     mainImageModules := [ ("/pages/gat/main.png", "/assets/main.png") ];
     main2ImageModules := [];
     albumImageModules :=
       [ ("/pages/gat/b.jpg", "/assets/b.jpg");
         ("/pages/gat/A.jpg", "/assets/a.jpg");
         ("/pages/gat/main.png", "/assets/main.png") ] |}.

Definition sampleGat : WorkItem :=
  {| slug := "gat"; folderPath := "/pages/gat";
     meta := metaOf "Gat" (YearString "2021") (MonthString "Maig");
     mainImageUrl := Some "/assets/main.png"; main2ImageUrl := None;
     albumImageUrls := ["/assets/main.png"; "/assets/a.jpg"; "/assets/b.jpg"] |}.

Definition workOf (s : string) (m : WorkMeta) : WorkItem :=
  {| slug := s; folderPath := "/pages/" +:+ s; meta := m;
     mainImageUrl := None; main2ImageUrl := None; albumImageUrls := [] |}.

(** Two works of 2020 whose metadata has no month. *)
Definition pi_ : WorkItem := workOf "pi" (metaOf "pi" (YearNumber 2020) MonthAbsent).
Definition om : WorkItem := workOf "om" (metaOf "om" (YearNumber 2020) MonthAbsent).
Definition twoWithoutMonth : list WorkItem := [pi_; om].

(** A work of June 2019, with its month as a number. *)
Definition roure : WorkItem := workOf "roure" (metaOf "roure" (YearString "2019") (MonthNumber 6)).


(** A service that finds nothing, and one that cannot be reached. *)
Definition noHits (n : nat) (q : string) : Geo.Response := Geo.Hits [].
(** A service that knows one place. *)
Definition oneHit (n : nat) (q : string) : Geo.Response := Geo.Hits [("41.93", "2.25")].

(** Three works outside the priority list: two dated, one not. *)
Definition cep : WorkItem := workOf "cep" (metaOf "cep" (YearNumber 2020) MonthAbsent).
Definition bri : WorkItem := workOf "bri" (metaOf "bri" YearAbsent MonthAbsent).
Definition arc : WorkItem := workOf "arc" (metaOf "arc" (YearNumber 2019) MonthAbsent).

(** ** Vocabulary of the properties *)

(** A non-empty name, a primary image, or at least one album image. *)
Definition hasContent (w : WorkItem) : Prop :=
  nom (meta w) <> ""
  \/ (exists u, mainImageUrl w = Some u /\ u <> "")
  \/ albumImageUrls w <> [].

Fixpoint containsChar (c : ascii) (s : string) : bool :=
  match s with
  | EmptyString => false
  | String c' r => Ascii.eqb c' c || containsChar c r
  end.

(** The tag separator does not occur in [s]. *)
Definition noHash (s : string) : Prop := containsChar "#" s = false.

(** The album file of [folder] a glob entry stands for, if any: its
    lower-cased file name and its URL. *)
Definition fileOf (folder : string) (e : string * string) : option (string * string) :=
  match albumMatch e.1 with
  | Some (f, file) =>
      if String.eqb f folder then Some (Js.toLowerCase file, e.2) else None
  | None => None
  end.

(** The album files of a folder, in the order of the glob. *)
Definition albumFiles (inp : Inputs) (folder : string) : list (string * string) :=
  omap (fileOf folder) (Js.entries (albumImageModules inp)).

Definition tagFile (f : string * string) : string := tagUrl f.2 f.1.

(** The album comparator read on (file name, URL) pairs. *)
Definition cmpFile (localeCompare : string -> string -> Z) (a b : string * string) : Z :=
  if isMain a.1 && negb (isMain b.1) then -1
  else if negb (isMain a.1) && isMain b.1 then 1
  else localeCompare a.1 b.1.

(** [a] collates before or with [b]. *)
Definition collatesLe (localeCompare : string -> string -> Z) (a b : string) : Prop :=
  localeCompare a b <= 0.

(** Every item has an empty album: the state before the albums are
    attached. *)
Definition albumless (wbf : Obj WorkItem) : Prop :=
  Forall (fun e => albumImageUrls e.2 = []) wbf.

(** Every item is filed under its own slug, and no folder twice. *)
Definition keyed (wbf : Obj WorkItem) : Prop :=
  Forall (fun e => slug e.2 = e.1) wbf /\ List.NoDup (map fst wbf).

(** The work is dated to year [y] and filed under month [m] by the
    timeline. *)
Definition filed (y m : Z) (w : WorkItem) : bool :=
  match datedYear w with
  | Some y' => (y' =? y) && (Timeline.monthIndexOf w =? m)
  | None => false
  end.

(** The carousel invariant: the index is not negative, and it is 0 unless
    an item is selected whose album is longer than it. *)
Definition carouselInv (works : list WorkItem) (st : Carousel.State) : Prop :=
  0 <= Carousel.currentImageIndex st
  /\ (Carousel.currentImageIndex st = 0
      \/ exists w, Carousel.selected works st = Some w
                   /\ Carousel.currentImageIndex st < Carousel.albumLength w).

(** The work is dated to year [y]. *)
Definition datedTo (y : Z) (w : WorkItem) : bool :=
  match datedYear w with Some y' => y' =? y | None => false end.

(** The year and month a point of the timeline stands for. *)
Definition pointKey (p : Timeline.TimePoint) : Z * Z :=
  (Timeline.tp_year p, Timeline.tp_month p).

(** ** Vocabulary for the merge of the four globs *)

(** The values a glob holds for [folder], in enumeration order. *)
Definition inFolder {V : Type} (folder : string) (e : string * V) : option V :=
  match folderMatch e.1 with
  | Some f => if String.eqb f folder then Some e.2 else None
  | None => None
  end.

Definition ofFolder {V : Type} (folder : string) (o : Obj V) : list V :=
  omap (inFolder folder) (Js.entries o).

(** The metadata record, main image and second main image that win for a
    folder: the last one enumerated. *)
Definition jsonOf (inp : Inputs) (folder : string) : option WorkMeta :=
  last (ofFolder folder (jsonModules inp)).
Definition mainOf (inp : Inputs) (folder : string) : option string :=
  last (ofFolder folder (mainImageModules inp)).
Definition main2Of (inp : Inputs) (folder : string) : option string :=
  last (ofFolder folder (main2ImageModules inp)).

(** A step that files something under the folder of a glob entry. *)
Definition keyedStep {E V : Type} (key : E -> option string)
    (upd : string -> E -> option V -> V) (acc : Obj V) (e : E) : Obj V :=
  match key e with
  | Some f => objSet f (upd f e (objGet f acc)) acc
  | None => acc
  end.

(** What the three first passes do to the item of the folder. *)
Definition jsonItem (f : string) (m : WorkMeta) (o : option WorkItem) : WorkItem :=
  newItem f m None None [].

Definition mainItem (f : string) (u : string) (o : option WorkItem) : WorkItem :=
  match o with
  | None => newItem f (placeholderMeta f) (Some u) None []
  | Some w => withMain w (Some u)
  end.

Definition main2Item (f : string) (u : string) (o : option WorkItem) : WorkItem :=
  match o with
  | None => newItem f (placeholderMeta f) None (Some u) []
  | Some w => withMain2 w (Some u)
  end.

(** What attaching a sorted album does to the item of the folder. *)
Definition albumItem (f : string) (sorted : list string) (o : option WorkItem) : WorkItem :=
  match o with
  | None => newItem f (placeholderMeta f) None None sorted
  | Some w =>
      let w1 := withAlbum w sorted in
      if negb (Js.truthyOpt (mainImageUrl w1)) && (0 <? Z.of_nat (length sorted))
      then withMain w1 (head sorted) else w1
  end.

(** The item of a folder before its album is attached. *)
Definition beforeAlbum (inp : Inputs) (f : string) : option WorkItem :=
  let o1 := (fun m => newItem f m None None []) <$> jsonOf inp f in
  let o2 := match mainOf inp f with
            | Some u => Some (mainItem f u o1)
            | None => o1
            end in
  match main2Of inp f with
  | Some u => Some (main2Item f u o2)
  | None => o2
  end.

(** The slug is on the priority list. *)
Definition listed (w : WorkItem) : bool :=
  negb (Js.indexOf priorityOrder (slug w) =? -1).

(** The year of the item is a finite number. *)
Definition finiteYear (w : WorkItem) : bool :=
  match yearOf (year (meta w)) with Fin _ => true | _ => false end.

Definition yearNumber (w : WorkItem) : Z :=
  match yearOf (year (meta w)) with Fin n => n | _ => 0 end.

(** [a] comes before [b] among the items off the priority list: a later
    year, or the same year and a name that collates first. *)
Definition byYearThenName (localeCompare : string -> string -> Z) (a b : WorkItem) : Prop :=
  yearNumber b < yearNumber a
  \/ (yearNumber a = yearNumber b /\ localeCompare (nameOf a) (nameOf b) <= 0).

(** [a] comes before [b] on the priority list. *)
Definition byPriority (a b : WorkItem) : Prop :=
  Js.indexOf priorityOrder (slug a) < Js.indexOf priorityOrder (slug b).

(** A folder with a metadata record and one picture, but no [main.*]. *)
Definition noMainInput : Inputs :=
  {| jsonModules := [ ("/pages/pi/info.json", metaOf "Pi" (YearNumber 2018) MonthAbsent) ];
     mainImageModules := []; main2ImageModules := [];
     albumImageModules := [ ("/pages/pi/a.jpg", "/assets/a.jpg") ] |}.

Definition noMainItem : WorkItem :=
  {| slug := "pi"; folderPath := "/pages/pi";
     meta := metaOf "Pi" (YearNumber 2018) MonthAbsent;
     mainImageUrl := Some "/assets/a.jpg"; main2ImageUrl := None;
     albumImageUrls := ["/assets/a.jpg"] |}.

(** The item of the folder of [sampleInput] whose record has no name. *)
Definition sampleBuit : WorkItem :=
  {| slug := "buit"; folderPath := "/pages/buit";
     meta := metaOf "" YearAbsent MonthAbsent;
     mainImageUrl := None; main2ImageUrl := None; albumImageUrls := [] |}.

(** An item the comparator orders consistently: on the priority list, or
    with a finite year. *)
Definition orderable (w : WorkItem) : Prop := listed w = true \/ finiteYear w = true.

(** Two folders of the priority list and three dated ones off it. *)
Definition orderedInput : Inputs :=
  {| jsonModules :=
       [ ("/pages/gat/info.json", metaOf "gat" (YearNumber 2021) MonthAbsent);
         ("/pages/oliba/info.json", metaOf "oliba" YearAbsent MonthAbsent);
         ("/pages/pi/info.json", metaOf "pi" (YearString "2018") MonthAbsent);
         ("/pages/lleo/info.json", metaOf "lleo" (YearNumber 2015) MonthAbsent);
         ("/pages/bou/info.json", metaOf "bou" (YearNumber 2021) MonthAbsent) ];
     mainImageModules := []; main2ImageModules := []; albumImageModules := [] |}.

(** ** More of the views *)

Inductive Language := catala | english.

(** [getMonthNames(language)]; the table inside [getMonthName] of the
    timeline is the same literal. *)
Definition getMonthNames (language : Language) : list string :=
  match language with
  | catala =>
      ["Gener"; "Febrer"; "Març"; "Abril"; "Maig"; "Juny"; "Juliol"; "Agost";
       "Setembre"; "Octubre"; "Novembre"; "Desembre"]
  | english =>
      ["January"; "February"; "March"; "April"; "May"; "June"; "July"; "August";
       "September"; "October"; "November"; "December"]
  end.

(** [getMonthName(monthIndex)]: [monthNames[monthIndex] || '']. *)
Definition getMonthName (language : Language) (monthIndex : Z) : string :=
  if monthIndex <? 0 then ""
  else default "" (getMonthNames language !! Z.to_nat monthIndex).

Module Path.









End Path.

Module Markers.
Section Markers.
(** Coordinates are floating-point numbers and the key of a group is
    [`${p.lat.toFixed(4)},${p.lng.toFixed(4)}`]: both are parameters. *)
Variable Num : Type.
Variable groupKey : Geo.LatLng Num -> string.

Record Group := {
  center : Geo.LatLng Num;
  items : list (WorkItem * Geo.LatLng Num);
}.

(** One step of [results.forEach] filling [groups]. *)
Definition addResult (groups : list (string * Group)) (r : WorkItem * Geo.LatLng Num) :
    list (string * Group) :=
  let key := groupKey r.2 in
  let g := default {| center := r.2; items := [] |} (objGet key groups) in
  objSet key {| center := center g; items := (items g ++ [r])%list |} groups.

Definition groupResults (results : list (WorkItem * Geo.LatLng Num)) :
    list (string * Group) :=
  fold_left addResult results [].

(** [Math.max(90, n * widthPer)] with [widthPer = 90]. *)
Definition totalWidth (g : Group) : Z :=
  Z.max 90 (Z.of_nat (length (items g)) * 90).
End Markers.
End Markers.

Module ElTaller.
(** The [albumImages] memo of the workshop page: the globbed pictures
    sorted by module path. *)
Definition albumImages (localeCompare : string -> string -> Z) (modules : Obj string) :
    list string :=
  map snd (Js.sort (fun a b => localeCompare a.1 b.1) (Js.entries modules)).
End ElTaller.



(** The hits a sequence of lookups adds to [results], and the state it
    ends in. *)
Section Hits.
Variable Num : Type.
Variable parseFloat : string -> Num.
Variable fetch : nat -> string -> Geo.Response.

Fixpoint hits (addrs : list (WorkItem * string)) (st : Geo.State Num) :
    list (WorkItem * Geo.LatLng Num) :=
  match addrs with
  | [] => []
  | a :: rest =>
      let (pos, st') := Geo.geocode Num parseFloat fetch a.2 st in
      match pos with
      | Some p => (a.1, p) :: hits rest st'
      | None => hits rest st'
      end
  end.

Fixpoint after (addrs : list (WorkItem * string)) (st : Geo.State Num) : Geo.State Num :=
  match addrs with
  | [] => st
  | a :: rest => after rest (Geo.geocode Num parseFloat fetch a.2 st).2
  end.
End Hits.

(** A work at a place the service knows, twice over, and a work without
    address or city. *)
Definition placa : WorkItem :=
  workOf "placa" {| nom := "Plaça"; city := Some "Vic"; address := None;
                    text_catala := None; text_angles := None;
                    year := YearNumber 2022; month := MonthAbsent |}.
Definition mercat : WorkItem :=
  workOf "mercat" {| nom := "Mercat"; city := Some "Vic"; address := Some "";
                     text_catala := None; text_angles := None;
                     year := YearNumber 2021; month := MonthAbsent |}.
Definition mapWorks : list WorkItem := [placa; om; mercat].

(** Vocabulary for the groups of markers. *)
Section MarkerVocabulary.
Variable Num : Type.
Variable groupKey : Geo.LatLng Num -> string.

(** The results filed under key [k]. *)
Definition itemsAt (k : string) (groups : list (string * Markers.Group Num)) :
    list (WorkItem * Geo.LatLng Num) :=
  default [] (Markers.items Num <$> objGet k groups).

Definition sameKey (k : string) (r : WorkItem * Geo.LatLng Num) : bool :=
  String.eqb (groupKey r.2) k.

(** A group is centred on its first item. *)
Definition centred (e : string * Markers.Group Num) : Prop :=
  exists r rest, Markers.items Num e.2 = r :: rest /\ Markers.center Num e.2 = r.2.
End MarkerVocabulary.

(** ** The drawer, the modal flag and the application shell *)

Module Drawer.
(** The flag [LObra] reports to the modal context,
    [setIsModalOpen(!!selectedSlug)], and whether the drawer is open,
    that is, whether [selected] is an item. *)
Definition isModalOpen (st : Carousel.State) : bool :=
  Js.truthyOpt (Carousel.selectedSlug st).

Definition drawerOpen (works : list WorkItem) (st : Carousel.State) : bool :=
  match Carousel.selected works st with Some _ => true | None => false end.

(** Selections come from the cards, rows and markers of the works. *)
Definition fromCards (works : list WorkItem) (ev : Carousel.Event) : Prop :=
  match ev with
  | Carousel.Select s => In s (map slug works)
  | _ => True
  end.
End Drawer.

Module App.

(** The state of [App]; [scrollY] is [window.scrollY], in whole pixels. *)
Record State := {
  language : Language;
  isModalOpen : bool;
  isMobileMenuOpen : bool;
  pathname : string;
  isScrolled : bool;
  scrollY : Z;
}.

Definition isHome (st : State) : bool := String.eqb (pathname st) "/".

Definition setIsScrolled (b : bool) (st : State) : State :=
  {| language := language st; isModalOpen := isModalOpen st;
     isMobileMenuOpen := isMobileMenuOpen st; pathname := pathname st;
     isScrolled := b; scrollY := scrollY st |}.

Definition setIsMobileMenuOpen (b : bool) (st : State) : State :=
  {| language := language st; isModalOpen := isModalOpen st;
     isMobileMenuOpen := b; pathname := pathname st;
     isScrolled := isScrolled st; scrollY := scrollY st |}.

Definition setPathname (p : string) (st : State) : State :=
  {| language := language st; isModalOpen := isModalOpen st;
     isMobileMenuOpen := isMobileMenuOpen st; pathname := p;
     isScrolled := isScrolled st; scrollY := scrollY st |}.

(** The effect that depends on [isHome]: off the home page it clears the
    flag; on it, it calls [onScroll] and installs it as the listener. *)
Definition homeEffect (st : State) : State :=
  if isHome st then setIsScrolled (20 <? scrollY st) st
  else setIsScrolled false st.

(** The first render at [path] with the window scrolled to [y], after its
    effects. *)
Definition mount (path : string) (y : Z) : State :=
  homeEffect {| language := catala; isModalOpen := false; isMobileMenuOpen := false;
                pathname := path; isScrolled := false; scrollY := y |}.

Inductive Event :=
  | Navigate (to : string)
  | MobileLink (to : string)
  | Scroll (y : Z)
  | ToggleMobileMenu
  | SetLanguage (l : Language)
  | SetIsModalOpen (b : bool).

(** A change of route: the effect on the path closes the mobile menu when
    the path changed, the effect on [isHome] runs when that changed. *)
Definition navigate (to : string) (st : State) : State :=
  let st1 := setPathname to st in
  let st2 := if String.eqb (pathname st) to then st1 else setIsMobileMenuOpen false st1 in
  if Bool.eqb (isHome st) (isHome st2) then st2 else homeEffect st2.

Definition step (st : State) (ev : Event) : State :=
  match ev with
  | Navigate to => navigate to st
  | MobileLink to => navigate to (setIsMobileMenuOpen false st)
  | Scroll y =>
      let st1 := {| language := language st; isModalOpen := isModalOpen st;
                    isMobileMenuOpen := isMobileMenuOpen st; pathname := pathname st;
                    isScrolled := isScrolled st; scrollY := y |} in
      if isHome st then setIsScrolled (20 <? y) st1 else st1
  | ToggleMobileMenu => setIsMobileMenuOpen (negb (isMobileMenuOpen st)) st
  | SetLanguage l =>
      {| language := l; isModalOpen := isModalOpen st;
         isMobileMenuOpen := isMobileMenuOpen st; pathname := pathname st;
         isScrolled := isScrolled st; scrollY := scrollY st |}
  | SetIsModalOpen b =>
      {| language := language st; isModalOpen := b;
         isMobileMenuOpen := isMobileMenuOpen st; pathname := pathname st;
         isScrolled := isScrolled st; scrollY := scrollY st |}
  end.

Definition run (path : string) (y : Z) (evs : list Event) : State :=
  fold_left step evs (mount path y).

(** The variant in the class of the navigation bar. *)
Definition navVariant (st : State) : string :=
  if isHome st then (if isScrolled st then "nav-home scrolled" else "nav-home top")
  else "nav-solid".

End App.

(** The invariant of the scroll flag. *)
Definition scrollInv (st : App.State) : Prop :=
  App.isScrolled st = App.isHome st && (20 <? App.scrollY st).
(** ** Facts about the platform primitives *)

Section SortFacts.
Context {A : Type} (cmp : A -> A -> Z).

Lemma insert_Permutation (x : A) (l : list A) :
  Permutation (Js.insert cmp x l) (x :: l).
Proof.
  induction l as [|y l IH]; simpl; [reflexivity|].
  destruct (cmp x y <=? 0); [reflexivity|].
  rewrite IH. apply perm_swap.
Qed.

(** The sort only reorders, whatever the comparator. *)
Lemma sort_Permutation (l : list A) : Permutation (Js.sort cmp l) l.
Proof.
  induction l as [|x l IH]; simpl; [reflexivity|].
  rewrite insert_Permutation. now constructor.
Qed.

Lemma In_sort (x : A) (l : list A) : In x (Js.sort cmp l) <-> In x l.
Proof.
  split; apply Permutation_in; [|symmetry]; apply sort_Permutation.
Qed.

(** [a] may stay before [b]. *)
Definition cmpLe (a b : A) : Prop := cmp a b <= 0.

(** A consistent comparator, as far as sorting needs it. *)
Hypothesis cmp_total : forall a b, 0 < cmp a b -> cmp b a <= 0.
Hypothesis cmp_trans : forall a b c, cmp a b <= 0 -> cmp b c <= 0 -> cmp a c <= 0.

Lemma insert_StronglySorted (x : A) (l : list A) :
  StronglySorted cmpLe l -> StronglySorted cmpLe (Js.insert cmp x l).
Proof.
  induction 1 as [|y l Hl IH Hy]; simpl.
  - repeat constructor.
  - destruct (Z.leb_spec (cmp x y) 0) as [Hxy|Hxy].
    + constructor; [now constructor|].
      constructor; [exact Hxy|].
      eapply List.Forall_impl; [|exact Hy].
      intros z Hz. eapply cmp_trans; eauto.
    + constructor; [exact IH|].
      eapply Permutation_Forall; [symmetry; apply insert_Permutation|].
      constructor; [now apply cmp_total | exact Hy].
Qed.

Lemma sort_StronglySorted (l : list A) : StronglySorted cmpLe (Js.sort cmp l).
Proof.
  induction l; simpl; [constructor | now apply insert_StronglySorted].
Qed.
End SortFacts.

(** Sorting commutes with a map that the comparators agree through on the
    elements of the list. *)
Lemma insert_map {A B : Type} (f : A -> B) (cmp : A -> A -> Z) (cmp' : B -> B -> Z)
    (x : A) (l : list A) :
  (forall y, In y l -> cmp' (f x) (f y) = cmp x y) ->
  Js.insert cmp' (f x) (map f l) = map f (Js.insert cmp x l).
Proof.
  induction l as [|y l IH]; intros H; simpl; [reflexivity|].
  rewrite (H y) by now left.
  destruct (cmp x y <=? 0); [reflexivity|].
  simpl. f_equal. apply IH. intros z Hz. apply H. now right.
Qed.

Lemma sort_map {A B : Type} (f : A -> B) (cmp : A -> A -> Z) (cmp' : B -> B -> Z)
    (l : list A) :
  (forall x y, In x l -> In y l -> cmp' (f x) (f y) = cmp x y) ->
  Js.sort cmp' (map f l) = map f (Js.sort cmp l).
Proof.
  induction l as [|x l IH]; intros H; simpl; [reflexivity|].
  rewrite IH.
  2:{ intros a b Ha Hb. apply H; right; assumption. }
  apply insert_map. intros y Hy. apply H; [now left|].
  right. exact (proj1 (In_sort cmp y l) Hy).
Qed.

Lemma entries_Permutation {V : Type} (o : Obj V) : Permutation (Js.entries o) o.
Proof.
  unfold Js.entries. rewrite sort_Permutation.
  induction o as [|e o IH]; simpl; [reflexivity|].
  destruct (Js.isIndexKey e); simpl.
  - now constructor.
  - rewrite <- Permutation_middle. now constructor.
Qed.

Lemma In_values {V : Type} (o : Obj V) (v : V) :
  In v (Js.values o) <-> exists k, In (k, v) o.
Proof.
  unfold Js.values. rewrite in_map_iff. split.
  - intros [[k v'] [Hv Hin]]. simpl in Hv. subst v'. exists k.
    eapply Permutation_in; [apply entries_Permutation | exact Hin].
  - intros [k Hin]. exists (k, v). split; [reflexivity|].
    eapply Permutation_in; [symmetry; apply entries_Permutation | exact Hin].
Qed.

(** Insertion-ordered maps. *)
Section OMapFacts.
Context {K V : Type} (eqb : K -> K -> bool).
Hypothesis eqb_spec : forall a b, reflect (a = b) (eqb a b).

Lemma get_set_eq (k : K) (v : V) (m : list (K * V)) :
  Js.get eqb k (Js.set eqb k v m) = Some v.
Proof.
  induction m as [|[k' v'] m IH]; simpl.
  - destruct (eqb_spec k k); congruence.
  - destruct (eqb_spec k' k) as [E|E]; simpl.
    + destruct (eqb_spec k' k); congruence.
    + destruct (eqb_spec k' k); congruence.
Qed.

Lemma get_set_ne (k k' : K) (v : V) (m : list (K * V)) :
  k <> k' -> Js.get eqb k' (Js.set eqb k v m) = Js.get eqb k' m.
Proof.
  intros Hne. induction m as [|[k0 v0] m IH]; simpl.
  - destruct (eqb_spec k k'); congruence.
  - destruct (eqb_spec k0 k) as [E|E]; simpl.
    + subst k0. destruct (eqb_spec k k'); congruence.
    + destruct (eqb_spec k0 k'); congruence.
Qed.

Lemma get_Some_In (k : K) (v : V) (m : list (K * V)) :
  Js.get eqb k m = Some v -> In (k, v) m.
Proof.
  induction m as [|[k' v'] m IH]; simpl; [discriminate|].
  destruct (eqb_spec k' k) as [E|E].
  - intros [= ->]. subst. now left.
  - intros H. right. now apply IH.
Qed.

Lemma get_None (k : K) (m : list (K * V)) :
  Js.get eqb k m = None <-> ~ In k (map fst m).
Proof.
  induction m as [|[k' v'] m IH]; simpl.
  - tauto.
  - destruct (eqb_spec k' k) as [E|E].
    + split; [discriminate | intros H; exfalso; apply H; now left].
    + rewrite IH. tauto.
Qed.

Lemma In_get (k : K) (v : V) (m : list (K * V)) :
  List.NoDup (map fst m) -> In (k, v) m -> Js.get eqb k m = Some v.
Proof.
  induction m as [|[k' v'] m IH]; simpl; [tauto|].
  intros Hnd [E|Hin].
  - inversion E; subst. destruct (eqb_spec k k); congruence.
  - apply List.NoDup_cons_iff in Hnd as [Hk Hnd].
    destruct (eqb_spec k' k) as [E|E].
    + subst k'. exfalso. apply Hk. apply in_map_iff. now exists (k, v).
    + now apply IH.
Qed.

Lemma In_keys_set (k k' : K) (v : V) (m : list (K * V)) :
  In k' (map fst (Js.set eqb k v m)) <-> k' = k \/ In k' (map fst m).
Proof.
  induction m as [|[k0 v0] m IH]; simpl.
  - intuition congruence.
  - destruct (eqb_spec k0 k) as [E|E]; simpl.
    + subst. intuition congruence.
    + rewrite IH. intuition congruence.
Qed.

Lemma NoDup_keys_set (k : K) (v : V) (m : list (K * V)) :
  List.NoDup (map fst m) -> List.NoDup (map fst (Js.set eqb k v m)).
Proof.
  induction m as [|[k0 v0] m IH]; simpl; intros Hnd.
  - constructor; [simpl; tauto | constructor].
  - apply List.NoDup_cons_iff in Hnd as [Hk Hnd].
    destruct (eqb_spec k0 k) as [E|E]; simpl.
    + apply List.NoDup_cons_iff. now split.
    + apply List.NoDup_cons_iff. split; [|now apply IH].
      rewrite In_keys_set. intros [E'|Hin]; [congruence | tauto].
Qed.

Lemma Forall_set (P : K * V -> Prop) (k : K) (v : V) (m : list (K * V)) :
  Forall P m -> P (k, v) -> Forall P (Js.set eqb k v m).
Proof.
  intros Hm Hkv. induction Hm as [|[k0 v0] m H0 Hm IH]; simpl.
  - now repeat constructor.
  - destruct (eqb_spec k0 k) as [E|E].
    + subst. now constructor.
    + now constructor.
Qed.
End OMapFacts.

Lemma NoDup_entries_keys {V : Type} (o : Obj V) :
  List.NoDup (map fst o) -> List.NoDup (map fst (Js.entries o)).
Proof.
  intros H. eapply Permutation_NoDup; [|exact H].
  apply Permutation_map. symmetry. apply entries_Permutation.
Qed.

Lemma In_entries {V : Type} (o : Obj V) (e : string * V) :
  In e (Js.entries o) <-> In e o.
Proof.
  split; apply Permutation_in; [|symmetry]; apply entries_Permutation.
Qed.

(** ** Facts about the catalogue loader *)

Lemma fold_left_invariant {A B : Type} (P : A -> Prop) (f : A -> B -> A)
    (l : list B) (a : A) :
  P a -> (forall a b, P a -> P (f a b)) -> P (fold_left f l a).
Proof.
  revert a. induction l as [|b l IH]; simpl; intros a Ha Hf; [exact Ha|].
  apply IH; auto.
Qed.

Lemma keep_hasContent (w : WorkItem) : keep w = true <-> hasContent w.
Proof.
  unfold keep, hasContent, Js.truthyOpt, Js.truthy.
  rewrite !orb_true_iff, !negb_true_iff, Z.ltb_lt.
  rewrite !String.eqb_neq.
  split.
  - intros [[H|H]|H].
    + now left.
    + right; left. destruct (mainImageUrl w) as [u|]; [|discriminate].
      exists u. rewrite negb_true_iff, String.eqb_neq in H. now split.
    + right; right. destruct (albumImageUrls w); simpl in *; [lia | discriminate].
  - intros [H|[[u [Hu Hne]]|H]].
    + now left; left.
    + left; right. rewrite Hu. now rewrite negb_true_iff, String.eqb_neq.
    + right. destruct (albumImageUrls w); simpl; [congruence | lia].
Qed.

(** *** Tags *)

Lemma split_noHash (s : string) : noHash s -> Js.split "#" s = [s].
Proof.
  unfold noHash. induction s as [|c s IH]; simpl; [reflexivity|].
  destruct (Ascii.eqb c "#"); simpl; [discriminate|].
  intros H. now rewrite IH.
Qed.

Lemma split_tagUrl (u f : string) :
  noHash u -> Js.split "#" (tagUrl u f) = u :: Js.split "#" f.
Proof.
  unfold noHash, tagUrl. induction u as [|c u IH]; simpl; [reflexivity|].
  destruct (Ascii.eqb c "#"); simpl; [discriminate|].
  intros H. now rewrite IH.
Qed.

Lemma untag_tagUrl (u f : string) : noHash u -> untag (tagUrl u f) = u.
Proof. intros H. unfold untag. now rewrite split_tagUrl. Qed.

Lemma tagOf_tagUrl (u f : string) : noHash u -> noHash f -> tagOf (tagUrl u f) = f.
Proof.
  intros Hu Hf. unfold tagOf. rewrite split_tagUrl by assumption.
  now rewrite split_noHash.
Qed.

(** *** The album comparator *)

Section AlbumOrder.
Variable localeCompare : string -> string -> Z.
Hypothesis lc_total : forall a b, 0 < localeCompare a b -> localeCompare b a <= 0.
Hypothesis lc_trans : forall a b c,
  localeCompare a b <= 0 -> localeCompare b c <= 0 -> localeCompare a c <= 0.

Lemma cmpFile_total (a b : string * string) :
  0 < cmpFile localeCompare a b -> cmpFile localeCompare b a <= 0.
Proof.
  unfold cmpFile. destruct (isMain a.1), (isMain b.1); simpl; auto; lia.
Qed.

Lemma cmpFile_trans (a b c : string * string) :
  cmpFile localeCompare a b <= 0 -> cmpFile localeCompare b c <= 0 ->
  cmpFile localeCompare a c <= 0.
Proof.
  unfold cmpFile.
  destruct (isMain a.1), (isMain b.1), (isMain c.1); simpl; eauto; lia.
Qed.

(** A list sorted by the album comparator is its [main.*] files, in
    collation order, followed by its other files, in collation order. *)
Lemma sorted_files_split (l : list (string * string)) :
  StronglySorted (cmpLe (cmpFile localeCompare)) l ->
  exists mains rest,
    l = (mains ++ rest)%list
    /\ Forall (fun f => isMain f.1 = true) mains
    /\ Forall (fun f => isMain f.1 = false) rest
    /\ StronglySorted (collatesLe localeCompare) (map fst mains)
    /\ StronglySorted (collatesLe localeCompare) (map fst rest).
Proof.
  induction 1 as [|x l Hl IH Hx].
  - exists [], []. repeat split; constructor.
  - destruct IH as (mains & rest & -> & Hm & Hr & Sm & Sr).
    apply Forall_app in Hx as [Hxm Hxr].
    destruct (isMain x.1) eqn:Ex.
    + exists (x :: mains), rest. repeat split; auto.
      simpl. constructor; [exact Sm|].
      apply Forall_map. rewrite Forall_forall in *.
      intros y Hy. specialize (Hxm y Hy). specialize (Hm y Hy).
      unfold cmpLe, cmpFile, collatesLe in *. simpl in *.
      rewrite Ex, Hm in Hxm. exact Hxm.
    + assert (mains = []) as ->.
      { destruct mains as [|y mains]; [reflexivity|]. exfalso.
        apply Forall_cons_iff in Hxm as [Hxy _].
        apply Forall_cons_iff in Hm as [Hy _].
        unfold cmpLe, cmpFile in Hxy. rewrite Ex, Hy in Hxy. simpl in Hxy. lia. }
      exists [], (x :: rest). simpl. repeat split; auto.
      constructor; [exact Sr|].
      apply Forall_map. rewrite Forall_forall in *.
      intros y Hy. specialize (Hxr y Hy). specialize (Hr y Hy).
      unfold cmpLe, cmpFile, collatesLe in *. simpl in *.
      rewrite Ex, Hr in Hxr. exact Hxr.
Qed.
End AlbumOrder.

Lemma cmpAlbum_tagFile (lc : string -> string -> Z) (a b : string * string) :
  noHash a.1 -> noHash a.2 -> noHash b.1 -> noHash b.2 ->
  cmpAlbum lc (tagFile a) (tagFile b) = cmpFile lc a b.
Proof.
  intros. unfold cmpAlbum, cmpFile, tagFile.
  now rewrite !tagOf_tagUrl.
Qed.

(** Without ['#'] in names and URLs, the album sort is the sort of the
    files themselves. *)
Lemma sortAlbum_files (lc : string -> string -> Z) (files : list (string * string)) :
  (forall f, In f files -> noHash f.1 /\ noHash f.2) ->
  sortAlbum lc (map tagFile files) = map snd (Js.sort (cmpFile lc) files).
Proof.
  intros Hf. unfold sortAlbum.
  rewrite (sort_map tagFile (cmpFile lc)).
  - rewrite map_map. apply map_ext_in. intros f Hin.
    apply (proj1 (In_sort (cmpFile lc) f files)) in Hin.
    unfold tagFile. apply untag_tagUrl. exact (proj2 (Hf f Hin)).
  - intros x y Hx Hy.
    destruct (Hf x Hx), (Hf y Hy). now apply cmpAlbum_tagFile.
Qed.

(** *** Grouping the album by folder *)

Lemma pushAlbum_get (folder : string) (es : Obj string) (acc : Obj (list string)) :
  default [] (objGet folder (fold_left pushAlbum es acc))
  = (default [] (objGet folder acc) ++ map tagFile (omap (fileOf folder) es))%list.
Proof.
  revert acc. induction es as [|e es IH]; intros acc; simpl.
  - now rewrite app_nil_r.
  - rewrite IH. unfold pushAlbum, fileOf.
    destruct (albumMatch e.1) as [[f file]|]; [|reflexivity].
    destruct (String.eqb_spec f folder) as [->|Hne].
    + rewrite (get_set_eq _ String.eqb_spec). simpl.
      now rewrite <- app_assoc.
    + now rewrite (get_set_ne _ String.eqb_spec) by assumption.
Qed.

Lemma pushAlbum_keys (folder : string) (es : Obj string) (acc : Obj (list string)) :
  In folder (map fst (fold_left pushAlbum es acc))
  <-> In folder (map fst acc) \/ omap (fileOf folder) es <> [].
Proof.
  revert acc. induction es as [|e es IH]; intros acc; simpl.
  - intuition congruence.
  - rewrite IH. unfold pushAlbum at 1, fileOf.
    destruct (albumMatch e.1) as [[f file]|]; [|tauto].
    rewrite (In_keys_set _ String.eqb_spec).
    destruct (String.eqb_spec f folder) as [->|Hne]; simpl.
    + intuition congruence.
    + intuition congruence.
Qed.

Lemma pushAlbum_NoDup (es : Obj string) (acc : Obj (list string)) :
  List.NoDup (map fst acc) -> List.NoDup (map fst (fold_left pushAlbum es acc)).
Proof.
  intros H. apply fold_left_invariant; [exact H|].
  intros a e Ha. unfold pushAlbum.
  destruct (albumMatch e.1) as [[f file]|]; [|exact Ha].
  now apply (NoDup_keys_set _ String.eqb_spec).
Qed.

Lemma albumByFolder_NoDup (inp : Inputs) : List.NoDup (map fst (albumByFolder inp)).
Proof. apply pushAlbum_NoDup. constructor. Qed.

(** The tagged URLs a folder is grouped under are those of its files. *)
Lemma albumByFolder_get (inp : Inputs) (folder : string) :
  objGet folder (albumByFolder inp)
  = match albumFiles inp folder with
    | [] => None
    | files => Some (map tagFile files)
    end.
Proof.
  pose proof (pushAlbum_get folder (Js.entries (albumImageModules inp)) []) as Hget.
  pose proof (pushAlbum_keys folder (Js.entries (albumImageModules inp)) []) as Hkeys.
  fold (albumByFolder inp) in Hget, Hkeys. fold (albumFiles inp folder) in Hget, Hkeys.
  simpl in Hget, Hkeys.
  destruct (albumFiles inp folder) as [|f files] eqn:Ef.
  - apply (get_None _ String.eqb_spec). rewrite Hkeys. intuition congruence.
  - destruct (objGet folder (albumByFolder inp)) as [tags|] eqn:Eg.
    + simpl in Hget. now rewrite Hget.
    + apply (get_None _ String.eqb_spec) in Eg. exfalso. apply Eg, Hkeys.
      right. discriminate.
Qed.

(** *** Attaching the albums *)

Section Attach.
Variable localeCompare : string -> string -> Z.

Lemma attachAlbum_other (wbf : Obj WorkItem) (e : string * list string) (k : string) :
  e.1 <> k -> objGet k (attachAlbum localeCompare wbf e) = objGet k wbf.
Proof.
  intros Hne. unfold attachAlbum.
  destruct (objGet e.1 wbf); now rewrite (get_set_ne _ String.eqb_spec).
Qed.

Lemma attachAlbum_self (wbf : Obj WorkItem) (e : string * list string) :
  exists w, objGet e.1 (attachAlbum localeCompare wbf e) = Some w
            /\ albumImageUrls w = sortAlbum localeCompare e.2.
Proof.
  unfold attachAlbum. destruct (objGet e.1 wbf) as [w0|];
    rewrite (get_set_eq _ String.eqb_spec); eexists; split; try reflexivity.
  destruct (_ && _); reflexivity.
Qed.

(** The branch for a folder that already has an item: an item without a
    main image gets the first picture of the sorted album. *)
Lemma attachAlbum_existing_gets_main (wbf : Obj WorkItem) (e : string * list string)
    (w : WorkItem) :
  objGet e.1 wbf = Some w ->
  Js.truthyOpt (mainImageUrl w) = false ->
  e.2 <> [] ->
  exists w', objGet e.1 (attachAlbum localeCompare wbf e) = Some w'
             /\ mainImageUrl w' = head (sortAlbum localeCompare e.2).
Proof.
  intros Hget Hmain Hne. unfold attachAlbum. rewrite Hget.
  rewrite (get_set_eq _ String.eqb_spec). eexists. split; [reflexivity|].
  simpl. rewrite Hmain. simpl.
  assert (Hlen : 0 < Z.of_nat (length (sortAlbum localeCompare e.2))).
  { unfold sortAlbum. rewrite length_map.
    rewrite (Permutation_length (sort_Permutation _ e.2)).
    destruct e.2; [congruence | simpl; lia]. }
  apply Z.ltb_lt in Hlen. rewrite Hlen. reflexivity.
Qed.

Lemma attach_fold_other (l : Obj (list string)) (wbf : Obj WorkItem) (k : string) :
  ~ In k (map fst l) ->
  objGet k (fold_left (attachAlbum localeCompare) l wbf) = objGet k wbf.
Proof.
  revert wbf. induction l as [|e l IH]; intros wbf Hk; simpl; [reflexivity|].
  simpl in Hk. rewrite IH by tauto. apply attachAlbum_other. tauto.
Qed.

Lemma attach_fold_in (l : Obj (list string)) (wbf : Obj WorkItem)
    (k : string) (tags : list string) :
  List.NoDup (map fst l) -> In (k, tags) l ->
  exists w, objGet k (fold_left (attachAlbum localeCompare) l wbf) = Some w
            /\ albumImageUrls w = sortAlbum localeCompare tags.
Proof.
  revert wbf. induction l as [|e l IH]; intros wbf Hnd Hin; simpl; [destruct Hin|].
  simpl in Hnd. apply List.NoDup_cons_iff in Hnd as [Hk Hnd].
  destruct Hin as [->|Hin].
  - rewrite attach_fold_other by exact Hk.
    apply (attachAlbum_self wbf (k, tags)).
  - now apply IH.
Qed.

Lemma albumless_get (wbf : Obj WorkItem) (k : string) (w : WorkItem) :
  albumless wbf -> objGet k wbf = Some w -> albumImageUrls w = [].
Proof.
  intros Hall Hget. apply (get_Some_In _ String.eqb_spec) in Hget.
  unfold albumless in Hall. rewrite List.Forall_forall in Hall.
  exact (Hall _ Hget).
Qed.

Lemma albumless_before_attach (inp : Inputs) :
  albumless
    (fold_left addMain2 (Js.entries (main2ImageModules inp))
       (fold_left addMain (Js.entries (mainImageModules inp))
          (fold_left addJson (Js.entries (jsonModules inp)) []))).
Proof.
  repeat apply fold_left_invariant.
  - constructor.
  - intros a e Ha. unfold addJson. destruct (folderMatch e.1); [|exact Ha].
    now apply (Forall_set _ String.eqb_spec).
  - intros a e Ha. unfold addMain. destruct (folderMatch e.1) as [f|]; [|exact Ha].
    destruct (objGet f a) as [w|] eqn:Eg;
      apply (Forall_set _ String.eqb_spec); auto.
    simpl. exact (albumless_get a f w Ha Eg).
  - intros a e Ha. unfold addMain2. destruct (folderMatch e.1) as [f|]; [|exact Ha].
    destruct (objGet f a) as [w|] eqn:Eg;
      apply (Forall_set _ String.eqb_spec); auto.
    simpl. exact (albumless_get a f w Ha Eg).
Qed.

(** The album of a folder's item is the sorted album of its files. *)
Lemma worksByFolder_album (inp : Inputs) (folder : string) (w : WorkItem) :
  objGet folder (worksByFolder localeCompare inp) = Some w ->
  albumImageUrls w = match albumFiles inp folder with
                     | [] => []
                     | files => sortAlbum localeCompare (map tagFile files)
                     end.
Proof.
  unfold worksByFolder. intros Hget.
  pose proof (albumByFolder_get inp folder) as Hab.
  destruct (albumFiles inp folder) as [|f files].
  - rewrite attach_fold_other in Hget.
    + exact (albumless_get _ _ _ (albumless_before_attach inp) Hget).
    + rewrite <- (get_None String.eqb String.eqb_spec).
      apply (get_None _ String.eqb_spec) in Hab.
      apply (get_None _ String.eqb_spec).
      intros Hin. apply Hab.
      eapply Permutation_in; [|exact Hin].
      apply Permutation_map, entries_Permutation.
  - apply (get_Some_In _ String.eqb_spec), In_entries in Hab.
    match type of Hget with
    | objGet _ (fold_left _ _ ?wbf3) = _ =>
        destruct (attach_fold_in (Js.entries (albumByFolder inp)) wbf3 folder _
                    (NoDup_entries_keys _ (albumByFolder_NoDup inp)) Hab)
          as (w' & Hw' & Halbum)
    end.
    rewrite Hw' in Hget. now injection Hget as <-.
Qed.
End Attach.

(** *** Items are keyed by their slug *)

Section Keyed.
Variable localeCompare : string -> string -> Z.

Lemma keyed_set (wbf : Obj WorkItem) (k : string) (w : WorkItem) :
  keyed wbf -> slug w = k -> keyed (objSet k w wbf).
Proof.
  intros [Hs Hnd] Hw. split.
  - now apply (Forall_set _ String.eqb_spec).
  - now apply (NoDup_keys_set _ String.eqb_spec).
Qed.

Lemma keyed_get (wbf : Obj WorkItem) (k : string) (w : WorkItem) :
  keyed wbf -> objGet k wbf = Some w -> slug w = k.
Proof.
  intros [Hs _] Hget. apply (get_Some_In _ String.eqb_spec) in Hget.
  rewrite List.Forall_forall in Hs. exact (Hs _ Hget).
Qed.

Lemma keyed_worksByFolder (inp : Inputs) : keyed (worksByFolder localeCompare inp).
Proof.
  unfold worksByFolder. repeat apply fold_left_invariant.
  - split; constructor.
  - intros a e Ha. unfold addJson. destruct (folderMatch e.1); [|exact Ha].
    now apply keyed_set.
  - intros a e Ha. unfold addMain. destruct (folderMatch e.1) as [f|]; [|exact Ha].
    destruct (objGet f a) as [w|] eqn:Eg; apply keyed_set; auto.
    simpl. exact (keyed_get a f w Ha Eg).
  - intros a e Ha. unfold addMain2. destruct (folderMatch e.1) as [f|]; [|exact Ha].
    destruct (objGet f a) as [w|] eqn:Eg; apply keyed_set; auto.
    simpl. exact (keyed_get a f w Ha Eg).
  - intros a e Ha. unfold attachAlbum.
    destruct (objGet e.1 a) as [w|] eqn:Eg; apply keyed_set; auto.
    destruct (_ && _); simpl; exact (keyed_get a e.1 w Ha Eg).
Qed.

(** A retained item is the entry of [worksByFolder] under its slug. *)
Lemma buildWorks_get (inp : Inputs) (w : WorkItem) :
  In w (buildWorks localeCompare inp) ->
  objGet (slug w) (worksByFolder localeCompare inp) = Some w.
Proof.
  unfold buildWorks. rewrite In_sort, filter_In, In_values.
  intros [[k Hin] _].
  destruct (keyed_worksByFolder inp) as [Hs Hnd].
  rewrite List.Forall_forall in Hs. pose proof (Hs _ Hin) as Hk.
  simpl in Hk. rewrite Hk.
  now apply (In_get _ String.eqb_spec).
Qed.

(** No two retained items share a slug. *)
Lemma buildWorks_NoDup (inp : Inputs) :
  List.NoDup (map slug (buildWorks localeCompare inp)).
Proof.
  unfold buildWorks.
  eapply Permutation_NoDup.
  { apply Permutation_map. symmetry. apply sort_Permutation. }
  destruct (keyed_worksByFolder inp) as [Hs Hnd].
  apply NoDup_entries_keys in Hnd.
  assert (Hs' : Forall (fun e => slug e.2 = e.1)
                  (Js.entries (worksByFolder localeCompare inp))).
  { rewrite List.Forall_forall in *. intros e He. apply Hs. now apply In_entries. }
  unfold Js.values.
  induction (Js.entries (worksByFolder localeCompare inp)) as [|e l IH]; simpl.
  - constructor.
  - apply Forall_cons_iff in Hs' as [He Hl].
    simpl in Hnd. apply List.NoDup_cons_iff in Hnd as [Hk Hnd].
    specialize (IH Hnd Hl).
    destruct (keep e.2); [|exact IH].
    simpl. apply List.NoDup_cons_iff. split; [|exact IH].
    rewrite He. intros Hin. apply Hk.
    apply in_map_iff in Hin as (w & Hw & Hin).
    apply filter_In in Hin as [Hin _].
    apply in_map_iff in Hin as (e' & <- & Hin).
    rewrite List.Forall_forall in Hl. rewrite <- Hw, (Hl _ Hin).
    apply in_map_iff. now exists e'.
Qed.
End Keyed.

(** ** Facts about the timeline *)

Lemma months_spec (m : Z) : In m Timeline.months <-> 0 <= m <= 11.
Proof.
  change Timeline.months with [0; 1; 2; 3; 4; 5; 6; 7; 8; 9; 10; 11].
  simpl. lia.
Qed.




Lemma addWork_bucket (ym : Timeline.YearMap) (w : WorkItem) (y m : Z) :
  Timeline.bucket (Timeline.addWork ym w) y m
  = (Timeline.bucket ym y m ++ if filed y m w then [w] else [])%list.
Proof.
  unfold Timeline.addWork, filed, Timeline.bucket.
  destruct (datedYear w) as [y'|]; [|now rewrite app_nil_r].
  destruct (Z.eqb_spec y' y) as [->|Hy]; simpl.
  - rewrite (get_set_eq _ Z.eqb_spec). simpl.
    destruct (Z.eqb_spec (Timeline.monthIndexOf w) m) as [->|Hm].
    + now rewrite (get_set_eq _ Z.eqb_spec).
    + rewrite (get_set_ne _ Z.eqb_spec) by assumption. now rewrite app_nil_r.
  - rewrite (get_set_ne _ Z.eqb_spec) by assumption. now rewrite app_nil_r.
Qed.

(** A bucket holds the works filed under it, in catalogue order. *)
Lemma yearMap_bucket (works : list WorkItem) (ym : Timeline.YearMap) (y m : Z) :
  Timeline.bucket (fold_left Timeline.addWork works ym) y m
  = (Timeline.bucket ym y m ++ List.filter (filed y m) works)%list.
Proof.
  revert ym. induction works as [|w works IH]; intros ym; simpl.
  - now rewrite app_nil_r.
  - rewrite IH, addWork_bucket, <- app_assoc. f_equal.
    now destruct (filed y m w).
Qed.

(** The years of the map are the years of the dated works. *)
Lemma yearMap_years (works : list WorkItem) (ym : Timeline.YearMap) (y : Z) :
  In y (map fst (fold_left Timeline.addWork works ym))
  <-> In y (map fst ym) \/ exists w, In w works /\ datedYear w = Some y.
Proof.
  revert ym. induction works as [|w works IH]; intros ym; simpl.
  - firstorder.
  - rewrite IH. unfold Timeline.addWork at 1.
    destruct (datedYear w) as [y'|] eqn:E.
    + rewrite (In_keys_set _ Z.eqb_spec). split.
      * intros [[->|H]|(w' & Hw' & Hy)]; eauto.
      * intros [H|(w' & [<-|Hw'] & Hy)]; eauto.
        left; left. congruence.
    + split.
      * intros [H|(w' & Hw' & Hy)]; eauto.
      * intros [H|(w' & [<-|Hw'] & Hy)]; eauto. congruence.
Qed.

(** The points of the timeline: one per month of every year of the map. *)
Lemma timelineData_spec (works : list WorkItem) (p : Timeline.TimePoint) :
  In p (Timeline.timelineData works)
  <-> exists y m,
        (exists w, In w works /\ datedYear w = Some y)
        /\ 0 <= m <= 11
        /\ p = {| Timeline.tp_year := y; Timeline.tp_month := m;
                  Timeline.tp_works := List.filter (filed y m) works;
                  Timeline.tp_timestamp := y * 12 + m |}.
Proof.
  unfold Timeline.timelineData. rewrite In_sort, in_flat_map.
  split.
  - intros (y & Hy & Hp). rewrite In_sort in Hy.
    unfold Timeline.pointsOfYear in Hp. apply in_map_iff in Hp as (m & <- & Hm).
    exists y, m. unfold Timeline.yearMapOf in *.
    apply yearMap_years in Hy as [[]|Hy].
    rewrite yearMap_bucket. split; [exact Hy|]. split; [now apply months_spec|].
    reflexivity.
  - intros (y & m & Hy & Hm & ->). exists y. rewrite In_sort. split.
    + unfold Timeline.yearMapOf. apply yearMap_years. now right.
    + unfold Timeline.pointsOfYear. apply in_map_iff. exists m.
      unfold Timeline.yearMapOf. rewrite yearMap_bucket.
      split; [reflexivity | now apply months_spec].
Qed.



Lemma yearMap_NoDup (works : list WorkItem) :
  List.NoDup (map fst (Timeline.yearMapOf works)).
Proof.
  unfold Timeline.yearMapOf. apply fold_left_invariant; [constructor|].
  intros ym w Hnd. unfold Timeline.addWork. destruct (datedYear w); [|exact Hnd].
  now apply (NoDup_keys_set _ Z.eqb_spec).
Qed.

Lemma pointsOfYear_keys (ym : Timeline.YearMap) (y : Z) :
  map pointKey (Timeline.pointsOfYear ym y) = map (fun m => (y, m)) Timeline.months.
Proof. unfold Timeline.pointsOfYear. rewrite map_map. reflexivity. Qed.

Lemma points_NoDup (ym : Timeline.YearMap) (ys : list Z) :
  List.NoDup ys ->
  List.NoDup (map pointKey (flat_map (Timeline.pointsOfYear ym) ys)).
Proof.
  induction 1 as [|y ys Hy Hnd IH]; [constructor|].
  cbn [flat_map]. rewrite List.map_app, pointsOfYear_keys. apply List.NoDup_app; [| exact IH |].
  - change Timeline.months with [0; 1; 2; 3; 4; 5; 6; 7; 8; 9; 10; 11]. simpl.
    repeat (constructor; [simpl; intuition congruence|]). constructor.
  - intros k Hk Hk'. apply in_map_iff in Hk as (m & <- & _).
    apply in_map_iff in Hk' as (p & Hp & Hin).
    apply in_flat_map in Hin as (y' & Hy' & Hin).
    unfold Timeline.pointsOfYear in Hin. apply in_map_iff in Hin as (m' & <- & _).
    unfold pointKey in Hp. simpl in Hp. injection Hp as -> _. contradiction.
Qed.

(** No year and month has two points. *)
Lemma timelineData_NoDup (works : list WorkItem) :
  List.NoDup (map pointKey (Timeline.timelineData works)).
Proof.
  unfold Timeline.timelineData.
  eapply Permutation_NoDup.
  { apply Permutation_map. symmetry. apply sort_Permutation. }
  apply points_NoDup.
  eapply Permutation_NoDup; [symmetry; apply sort_Permutation|].
  apply yearMap_NoDup.
Qed.

(** ** Facts about the calendar buckets *)












Lemma calendar_addWork_get (works : list WorkItem) (acc : list (Z * list WorkItem)) (y : Z) :
  default [] (zGet y (fold_left Calendar.addWork works acc))
  = (default [] (zGet y acc) ++ List.filter (datedTo y) works)%list.
Proof.
  revert acc. induction works as [|w works IH]; intros acc; simpl.
  - now rewrite app_nil_r.
  - rewrite IH. unfold Calendar.addWork, datedTo.
    destruct (datedYear w) as [y'|]; [|reflexivity].
    destruct (Z.eqb_spec y' y) as [->|Hne].
    + rewrite (get_set_eq _ Z.eqb_spec). simpl. now rewrite <- app_assoc.
    + now rewrite (get_set_ne _ Z.eqb_spec) by assumption.
Qed.

(** A group of the calendar holds the works dated to its year, in
    catalogue order. *)
Lemma calendar_groups_items (works : list WorkItem) (y : Z) (items : list WorkItem) :
  In (y, items) (Calendar.groups works) -> items = List.filter (datedTo y) works.
Proof.
  unfold Calendar.groups. rewrite In_sort. intros Hin.
  assert (Hnd : List.NoDup (map fst (fold_left Calendar.addWork works []))).
  { apply fold_left_invariant; [constructor|].
    intros a w Ha. unfold Calendar.addWork. destruct (datedYear w); [|exact Ha].
    now apply (NoDup_keys_set _ Z.eqb_spec). }
  apply (In_get _ Z.eqb_spec _ _ _ Hnd) in Hin.
  pose proof (calendar_addWork_get works [] y) as Hget.
  rewrite Hin in Hget. exact Hget.
Qed.

(** ** Facts about the carousel *)

Lemma next_range (n i : Z) : 0 < n -> 0 <= i -> 0 <= Carousel.next n i < n.
Proof. intros Hn Hi. unfold Carousel.next. apply Z.rem_bound_pos; lia. Qed.

Lemma previous_range (n i : Z) : 0 < n -> 0 <= i -> 0 <= Carousel.previous n i < n.
Proof. intros Hn Hi. unfold Carousel.previous. apply Z.rem_bound_pos; lia. Qed.

Lemma albumLength_pos (w : WorkItem) : Carousel.albumLength w <> 0 -> 0 < Carousel.albumLength w.
Proof. unfold Carousel.albumLength. lia. Qed.

Lemma carouselInv_setSelectedSlug (works : list WorkItem) (st : Carousel.State)
    (s : option string) :
  carouselInv works st -> carouselInv works (Carousel.setSelectedSlug s st).
Proof.
  intros Hinv. unfold Carousel.setSelectedSlug.
  destruct (decide (s = Carousel.selectedSlug st)); [exact Hinv|].
  split; simpl; [lia | now left].
Qed.

Lemma carouselInv_move (works : list WorkItem) (st : Carousel.State) (w : WorkItem)
    (f : Z -> Z) :
  Carousel.selected works st = Some w ->
  (forall i, 0 <= i -> 0 <= f i < Carousel.albumLength w) ->
  carouselInv works st -> carouselInv works (Carousel.setCurrentImageIndex f st).
Proof.
  intros Hsel Hf [Hi _]. specialize (Hf _ Hi).
  split; simpl; [lia|]. right. exists w. split; [exact Hsel | lia].
Qed.

Lemma carouselInv_step (works : list WorkItem) (st : Carousel.State) (ev : Carousel.Event) :
  carouselInv works st -> carouselInv works (Carousel.step works st ev).
Proof.
  intros Hinv. destruct ev; simpl;
    try (now apply carouselInv_setSelectedSlug);
    destruct (Carousel.selected works st) as [w|] eqn:Hsel; try exact Hinv.
  - destruct (Z.eqb_spec (Carousel.albumLength w) 0) as [E|E]; [exact Hinv|].
    eapply carouselInv_move; eauto. intros i Hi.
    apply next_range; [now apply albumLength_pos | exact Hi].
  - destruct (Z.eqb_spec (Carousel.albumLength w) 0) as [E|E]; [exact Hinv|].
    eapply carouselInv_move; eauto. intros i Hi.
    apply previous_range; [now apply albumLength_pos | exact Hi].
  - destruct (Z.ltb_spec 1 (Carousel.albumLength w)) as [E|E]; [|exact Hinv].
    eapply carouselInv_move; eauto. intros i Hi. apply next_range; lia.
  - destruct (Z.ltb_spec 1 (Carousel.albumLength w)) as [E|E]; [|exact Hinv].
    eapply carouselInv_move; eauto. intros i Hi. apply previous_range; lia.
Qed.

Lemma carouselInv_run (works : list WorkItem) (evs : list Carousel.Event) :
  carouselInv works (Carousel.run works evs).
Proof.
  unfold Carousel.run. apply fold_left_invariant.
  - split; simpl; [lia | now left].
  - intros st ev. apply carouselInv_step.
Qed.

(** ** Facts about the geocoder *)

Section GeoFacts.
Variable Num : Type.
Variable parseFloat : string -> Num.
Variable fetch : nat -> string -> Geo.Response.

Local Abbreviation geocode := (Geo.geocode Num parseFloat fetch).
Local Abbreviation lookups := (Geo.lookups Num parseFloat fetch).

(** A lookup that returns a position leaves it in the cache. *)
Lemma geocode_hit_cached (q : string) (st : Geo.State Num) (pos : Geo.LatLng Num) :
  (geocode q st).1 = Some pos -> Geo.cache Num (geocode q st).2 !! q = Some pos.
Proof.
  unfold Geo.geocode. destruct (Geo.cache Num st !! q) as [p|] eqn:Ec; simpl.
  - intros [= <-]. exact Ec.
  - destruct (fetch (length (Geo.requests Num st)) q) as [| | |[|hit data]]; simpl;
      try discriminate.
    intros [= <-]. apply lookup_insert_eq.
Qed.

(** A lookup served from the cache sends nothing and changes nothing. *)
Lemma geocode_cached (q : string) (st : Geo.State Num) (pos : Geo.LatLng Num) :
  Geo.cache Num st !! q = Some pos -> geocode q st = (Some pos, st).
Proof. intros H. unfold Geo.geocode. now rewrite H. Qed.

(** A lookup that fails has sent one request and cached nothing. *)
Lemma geocode_miss (q : string) (st : Geo.State Num) :
  (geocode q st).1 = None ->
  Geo.cache Num st !! q = None
  /\ Geo.requests Num (geocode q st).2 = (Geo.requests Num st ++ [q])%list
  /\ Geo.cache Num (geocode q st).2 = Geo.cache Num st
  /\ Geo.storage Num (geocode q st).2 = Geo.storage Num st.
Proof.
  unfold Geo.geocode. destruct (Geo.cache Num st !! q) as [p|] eqn:Ec; simpl.
  - discriminate.
  - destruct (fetch (length (Geo.requests Num st)) q) as [| | |[|hit data]]; simpl;
      try discriminate; auto.
Qed.

(** A lookup of a string that is not cached sends one request. *)
Lemma geocode_uncached (q : string) (st : Geo.State Num) :
  Geo.cache Num st !! q = None ->
  Geo.requests Num (geocode q st).2 = (Geo.requests Num st ++ [q])%list.
Proof.
  intros Hc. unfold Geo.geocode. rewrite Hc.
  destruct (fetch (length (Geo.requests Num st)) q) as [| | |[|hit data]]; reflexivity.
Qed.

(** A lookup sends at most one request. *)
Lemma geocode_requests (q : string) (st : Geo.State Num) :
  Geo.requests Num (geocode q st).2 = Geo.requests Num st
  \/ Geo.requests Num (geocode q st).2 = (Geo.requests Num st ++ [q])%list.
Proof.
  unfold Geo.geocode. destruct (Geo.cache Num st !! q) as [p|]; simpl; [now left|].
  destruct (fetch (length (Geo.requests Num st)) q) as [| | |[|hit data]]; simpl;
    now right.
Qed.




End GeoFacts.


(** ** The example collation is a consistent comparator *)

Lemma codeUnitCompare_le (a b : string) :
  codeUnitCompare a b <= 0 <-> String.le a b.
Proof.
  unfold codeUnitCompare, String.le, String.leb.
  destruct (String.compare a b); simpl; intuition (try lia; try discriminate).
Qed.

Lemma codeUnitCompare_total (a b : string) :
  0 < codeUnitCompare a b -> codeUnitCompare b a <= 0.
Proof.
  unfold codeUnitCompare. rewrite (String.compare_antisym a b).
  destruct (String.compare b a); simpl; lia.
Qed.

Lemma codeUnitCompare_trans (a b c : string) :
  codeUnitCompare a b <= 0 -> codeUnitCompare b c <= 0 -> codeUnitCompare a c <= 0.
Proof.
  rewrite !codeUnitCompare_le. apply transitivity.
Qed.

(** ** Properties of the catalogue loader *)

(** C1 (evaluation of the code where it departs from the claim): of two
    works outside the priority list, the one without a year is compared
    with the dated one by name only, so the undated "ase" is listed before
    "bou" of 2020 instead of last. *)
Theorem buildWorks_undated_sorted_by_name :
  map (fun w => (slug w, yearOf (year (meta w)))) (buildWorks codeUnitCompare undatedInput)
  = [("ase", NegInfinity); ("bou", Fin 2020)].
Proof. vm_compute. reflexivity. Qed.

(** With an undated work between two dated ones the comparator runs in a
    circle: "cep" before "arc" by year, "arc" before "bri" and "bri"
    before "cep" by name. *)
Example cmpWorks_cycle :
  cmpWorks codeUnitCompare cep arc < 0
  /\ cmpWorks codeUnitCompare arc bri < 0
  /\ cmpWorks codeUnitCompare bri cep < 0.
Proof. repeat split. Qed.

(** C2: the items [buildWorks] returns are exactly the merged items that
    have a non-empty name, a primary image, or at least one album image;
    the merged items with none of these are dropped. *)
Theorem buildWorks_keeps_items_with_content
    (localeCompare : string -> string -> Z) (inp : Inputs) (w : WorkItem) :
  In w (buildWorks localeCompare inp)
  <-> In w (Js.values (worksByFolder localeCompare inp)) /\ hasContent w.
Proof.
  unfold buildWorks. rewrite In_sort, filter_In, keep_hasContent. reflexivity.
Qed.

Lemma buildWorks_keeps_items_with_content_witness :
  In sampleGat (buildWorks codeUnitCompare sampleInput) /\ hasContent sampleGat.
Proof.
  assert (H : In sampleGat (buildWorks codeUnitCompare sampleInput)).
  { vm_compute. left. reflexivity. }
  split; [exact H|].
  exact (proj2 (proj1 (buildWorks_keeps_items_with_content
                         codeUnitCompare sampleInput sampleGat) H)).
Defined.

(** C3 (evaluation of the code where it departs from the claim): a folder
    with one picture and neither metadata nor a [main.*] file yields an
    item whose album holds the picture and whose primary image is unset. *)
Theorem buildWorks_album_only_folder_has_no_main
    (localeCompare : string -> string -> Z) :
  buildWorks localeCompare albumOnlyInput
  = [ {| slug := "gat"; folderPath := "/pages/gat"; meta := placeholderMeta "gat";
         mainImageUrl := None; main2ImageUrl := None;
         albumImageUrls := ["/assets/a.jpg"] |} ].
Proof. reflexivity. Qed.

(** C5: in the album of every retained item, the files named [main.*] come
    first and the other files after them, each group in the collation
    order of the lower-cased file names; the album is a rearrangement of
    the folder's files. The tag separator ['#'] is assumed to occur in no
    file name and no URL of the folder. *)
Theorem album_main_first_then_collated
    (localeCompare : string -> string -> Z)
    (lc_total : forall a b, 0 < localeCompare a b -> localeCompare b a <= 0)
    (lc_trans : forall a b c,
        localeCompare a b <= 0 -> localeCompare b c <= 0 -> localeCompare a c <= 0)
    (inp : Inputs) (w : WorkItem) :
  In w (buildWorks localeCompare inp) ->
  (forall f, In f (albumFiles inp (slug w)) -> noHash f.1 /\ noHash f.2) ->
  exists mains rest,
    Permutation (mains ++ rest) (albumFiles inp (slug w))
    /\ albumImageUrls w = map snd (mains ++ rest)
    /\ Forall (fun f => isMain f.1 = true) mains
    /\ Forall (fun f => isMain f.1 = false) rest
    /\ StronglySorted (collatesLe localeCompare) (map fst mains)
    /\ StronglySorted (collatesLe localeCompare) (map fst rest).
Proof.
  intros Hin Hhash.
  apply buildWorks_get in Hin. apply worksByFolder_album in Hin.
  destruct (albumFiles inp (slug w)) as [|f files] eqn:Ef.
  - exists [], []. rewrite Hin. repeat split; constructor.
  - rewrite sortAlbum_files in Hin by exact Hhash.
    destruct (sorted_files_split localeCompare (Js.sort (cmpFile localeCompare) (f :: files)))
      as (mains & rest & Hsplit & Hm & Hr & Sm & Sr).
    { apply sort_StronglySorted.
      - apply cmpFile_total, lc_total.
      - apply cmpFile_trans, lc_trans. }
    exists mains, rest. rewrite <- Hsplit. repeat split; auto.
    apply sort_Permutation.
Qed.

Lemma album_main_first_then_collated_witness :
  exists mains rest,
    Permutation (mains ++ rest) (albumFiles sampleInput (slug sampleGat))
    /\ albumImageUrls sampleGat = map snd (mains ++ rest)
    /\ Forall (fun f => isMain f.1 = true) mains
    /\ Forall (fun f => isMain f.1 = false) rest
    /\ StronglySorted (collatesLe codeUnitCompare) (map fst mains)
    /\ StronglySorted (collatesLe codeUnitCompare) (map fst rest).
Proof.
  apply (album_main_first_then_collated codeUnitCompare
           codeUnitCompare_total codeUnitCompare_trans sampleInput sampleGat).
  - vm_compute. left. reflexivity.
  - intros f Hf. vm_compute in Hf.
    destruct Hf as [<-|[<-|[<-|[]]]]; split; reflexivity.
Defined.

(** ** Properties of the timeline and the calendar *)




(** C9: the timeline has a point for a year and a month exactly when some
    work is dated to that year and the month is one of the twelve,
    whether or not a work is filed under that month; and it has no two
    points for the same year and month. *)
Theorem timeline_points_are_all_months_of_dated_years (works : list WorkItem) :
  (forall y m,
      (exists p, In p (Timeline.timelineData works)
                 /\ Timeline.tp_year p = y /\ Timeline.tp_month p = m)
      <-> (exists w, In w works /\ datedYear w = Some y) /\ 0 <= m <= 11)
  /\ List.NoDup (map pointKey (Timeline.timelineData works)).
Proof.
  split; [|apply timelineData_NoDup].
  intros y m. split.
  - intros (p & Hp & <- & <-).
    apply timelineData_spec in Hp as (y & m & Hy & Hm & ->). now split.
  - intros [Hy Hm]. eexists. split.
    + apply timelineData_spec. exists y, m. repeat split; [exact Hy | lia | lia].
    + split; reflexivity.
Qed.

Lemma timeline_points_are_all_months_of_dated_years_witness :
  exists p, In p (Timeline.timelineData [roure])
            /\ Timeline.tp_year p = 2019 /\ Timeline.tp_month p = 11.
Proof.
  apply (proj2 (proj1 (timeline_points_are_all_months_of_dated_years [roure]) 2019 11)).
  split; [|lia]. exists roure. split; [left|]; reflexivity.
Defined.



(** ** Properties of the carousel *)



(** ** Properties of the geocoder and the map *)

(** C7 (where the claim fails): when the service finds nothing, nothing is
    cached and looking the same address up twice sends two requests. *)
Lemma failed_lookup_is_requested_twice :
  Geo.requests unit
    (Geo.geocode unit (fun _ => tt) noHits "Vic"
       (Geo.geocode unit (fun _ => tt) noHits "Vic" (Geo.start unit ∅)).2).2
  = ["Vic"; "Vic"].
Proof. reflexivity. Qed.

(** C7 (as amended): when the first lookup of an address yields a
    position, from the cache or from the service, the second lookup of the
    same string returns it from the cache and sends no request, so both
    together send at most one; when the first lookup fails, the second one
    sends a request again. *)
Theorem second_lookup_cached_after_success
    (Num : Type) (parseFloat : string -> Num) (fetch : nat -> string -> Geo.Response)
    (q : string) (st : Geo.State Num) :
  let first := Geo.geocode Num parseFloat fetch q st in
  let second := Geo.geocode Num parseFloat fetch q first.2 in
  (forall pos, first.1 = Some pos ->
      second = (Some pos, first.2)
      /\ (length (Geo.requests Num second.2) <= length (Geo.requests Num st) + 1)%nat)
  /\ (first.1 = None ->
      Geo.requests Num second.2 = (Geo.requests Num st ++ [q; q])%list).
Proof.
  intros first second. split.
  - intros pos Hpos.
    assert (E : second = (Some pos, first.2)).
    { apply geocode_cached. now apply geocode_hit_cached. }
    split; [exact E|]. rewrite E. simpl.
    destruct (geocode_requests Num parseFloat fetch q st) as [H|H];
      fold first in H; rewrite H; [lia|].
    rewrite length_app. simpl. lia.
  - intros Hnone.
    destruct (geocode_miss Num parseFloat fetch q st Hnone) as (Hc & Hr & Hc' & _).
    fold first in Hr, Hc'. subst second.
    rewrite geocode_uncached by (now rewrite Hc').
    rewrite Hr, <- app_assoc. reflexivity.
Qed.

Lemma second_lookup_cached_after_success_witness :
  let first := Geo.geocode unit (fun _ => tt) oneHit "Vic" (Geo.start unit ∅) in
  let second := Geo.geocode unit (fun _ => tt) oneHit "Vic" first.2 in
  second = (Some {| Geo.lat := tt; Geo.lng := tt |}, first.2)
  /\ (length (Geo.requests unit second.2) <= 0 + 1)%nat.
Proof.
  apply (proj1 (second_lookup_cached_after_success unit (fun _ => tt) oneHit "Vic"
                  (Geo.start unit ∅))).
  reflexivity.
Defined.




(** ** The merge, folder by folder *)

Lemma keyedStep_fold {E V : Type} (key : E -> option string)
    (upd : string -> E -> option V -> V) (es : list E) (acc : Obj V) (folder : string) :
  objGet folder (fold_left (keyedStep key upd) es acc)
  = fold_left (fun o e => match key e with
                          | Some f => if String.eqb f folder then Some (upd f e o) else o
                          | None => o
                          end) es (objGet folder acc).
Proof.
  revert acc. induction es as [|e es IH]; intros acc; simpl; [reflexivity|].
  rewrite IH. f_equal. unfold keyedStep.
  destruct (key e) as [f|]; [|reflexivity].
  destruct (String.eqb_spec f folder) as [->|Hne].
  - apply (get_set_eq _ String.eqb_spec).
  - now apply (get_set_ne _ String.eqb_spec).
Qed.

(** Only the entries of the folder count, and of them only the values. *)
Lemma folder_fold {V W : Type} (updv : string -> V -> option W -> W)
    (es : Obj V) (o : option W) (folder : string) :
  fold_left (fun o e => match folderMatch e.1 with
                        | Some f => if String.eqb f folder then Some (updv f e.2 o) else o
                        | None => o
                        end) es o
  = fold_left (fun o v => Some (updv folder v o)) (omap (inFolder folder) es) o.
Proof.
  revert o. induction es as [|e es IH]; intros o; simpl; [reflexivity|].
  rewrite IH. unfold inFolder at 2.
  destruct (folderMatch e.1) as [f|]; [|reflexivity].
  destruct (String.eqb_spec f folder) as [->|Hne]; reflexivity.
Qed.

Lemma addJson_keyed (wbf : Obj WorkItem) (e : string * WorkMeta) :
  addJson wbf e = keyedStep (fun e => folderMatch e.1) (fun f e => jsonItem f e.2) wbf e.
Proof. reflexivity. Qed.

Lemma addMain_keyed (wbf : Obj WorkItem) (e : string * string) :
  addMain wbf e = keyedStep (fun e => folderMatch e.1) (fun f e => mainItem f e.2) wbf e.
Proof.
  unfold addMain, keyedStep, mainItem.
  destruct (folderMatch e.1) as [f|]; [|reflexivity].
  now destruct (objGet f wbf).
Qed.

Lemma addMain2_keyed (wbf : Obj WorkItem) (e : string * string) :
  addMain2 wbf e = keyedStep (fun e => folderMatch e.1) (fun f e => main2Item f e.2) wbf e.
Proof.
  unfold addMain2, keyedStep, main2Item.
  destruct (folderMatch e.1) as [f|]; [|reflexivity].
  now destruct (objGet f wbf).
Qed.

Lemma fold_left_ext_step {A B : Type} (f g : A -> B -> A) (l : list B) (a : A) :
  (forall a b, f a b = g a b) -> fold_left f l a = fold_left g l a.
Proof.
  intros H. revert a. induction l as [|b l IH]; intros a; simpl; [reflexivity|].
  now rewrite H, IH.
Qed.

Lemma last_cons_some {A : Type} (x : A) (l : list A) :
  last (x :: l) = Some (default x (last l)).
Proof.
  revert x. induction l as [|y l IH]; intros x; [reflexivity|].
  change (last (x :: y :: l)) with (last (y :: l)). rewrite IH.
  simpl. now destruct (last l).
Qed.

(** The last metadata record wins. *)
Lemma json_fold (f : string) (ms : list WorkMeta) (o : option WorkItem) :
  fold_left (fun o m => Some (jsonItem f m o)) ms o
  = match last ms with
    | Some m => Some (newItem f m None None [])
    | None => o
    end.
Proof.
  revert o. induction ms as [|m ms IH]; intros o; [reflexivity|].
  simpl fold_left. rewrite IH, last_cons_some.
  destruct (last ms); reflexivity.
Qed.

(** The last main image wins, on the item there was or on a placeholder. *)
Lemma main_fold (f : string) (us : list string) (o : option WorkItem) :
  fold_left (fun o u => Some (mainItem f u o)) us o
  = match last us with
    | Some u => Some (mainItem f u o)
    | None => o
    end.
Proof.
  revert o. induction us as [|u us IH]; intros o; [reflexivity|].
  simpl fold_left. rewrite IH, last_cons_some.
  destruct (last us) as [u'|]; [|reflexivity].
  simpl. now destruct o.
Qed.

Lemma main2_fold (f : string) (us : list string) (o : option WorkItem) :
  fold_left (fun o u => Some (main2Item f u o)) us o
  = match last us with
    | Some u => Some (main2Item f u o)
    | None => o
    end.
Proof.
  revert o. induction us as [|u us IH]; intros o; [reflexivity|].
  simpl fold_left. rewrite IH, last_cons_some.
  destruct (last us) as [u'|]; [|reflexivity].
  simpl. now destruct o.
Qed.

(** The item of a folder after the three first passes. *)
Lemma beforeAlbum_get (inp : Inputs) (f : string) :
  objGet f
    (fold_left addMain2 (Js.entries (main2ImageModules inp))
       (fold_left addMain (Js.entries (mainImageModules inp))
          (fold_left addJson (Js.entries (jsonModules inp)) [])))
  = beforeAlbum inp f.
Proof.
  rewrite (fold_left_ext_step _ _ _ _ addMain2_keyed), keyedStep_fold.
  rewrite (fold_left_ext_step _ _ _ _ addMain_keyed), keyedStep_fold.
  rewrite (fold_left_ext_step _ _ _ _ addJson_keyed), keyedStep_fold.
  rewrite (folder_fold (fun f u => main2Item f u)), main2_fold.
  rewrite (folder_fold (fun f u => mainItem f u)), main_fold.
  rewrite (folder_fold (fun f m => jsonItem f m)), json_fold.
  unfold beforeAlbum, jsonOf, mainOf, main2Of, ofFolder. simpl.
  destruct (last (omap (inFolder f) (Js.entries (jsonModules inp)))); reflexivity.
Qed.

Section AttachItem.
Variable localeCompare : string -> string -> Z.

Lemma attachAlbum_get (wbf : Obj WorkItem) (e : string * list string) :
  objGet e.1 (attachAlbum localeCompare wbf e)
  = Some (albumItem e.1 (sortAlbum localeCompare e.2) (objGet e.1 wbf)).
Proof.
  unfold attachAlbum, albumItem.
  destruct (objGet e.1 wbf); now rewrite (get_set_eq _ String.eqb_spec).
Qed.

Lemma attach_fold_at (l : Obj (list string)) (wbf : Obj WorkItem)
    (k : string) (tags : list string) :
  List.NoDup (map fst l) -> In (k, tags) l ->
  objGet k (fold_left (attachAlbum localeCompare) l wbf)
  = Some (albumItem k (sortAlbum localeCompare tags) (objGet k wbf)).
Proof.
  revert wbf. induction l as [|e l IH]; intros wbf Hnd Hin; [destruct Hin|].
  simpl in Hnd. apply List.NoDup_cons_iff in Hnd as [Hk Hnd]. simpl.
  destruct Hin as [->|Hin].
  - rewrite attach_fold_other by exact Hk.
    apply (attachAlbum_get wbf (k, tags)).
  - rewrite IH by assumption. f_equal. f_equal.
    apply attachAlbum_other. intros E. apply Hk. rewrite E.
    apply in_map_iff. now exists (k, tags).
Qed.

(** The item of a folder is made of the folder's own entries: of its last
    metadata record, its last main and second main image, and its album. *)
Lemma worksByFolder_get (inp : Inputs) (f : string) :
  objGet f (worksByFolder localeCompare inp)
  = match albumFiles inp f with
    | [] => beforeAlbum inp f
    | files => Some (albumItem f (sortAlbum localeCompare (map tagFile files))
                       (beforeAlbum inp f))
    end.
Proof.
  unfold worksByFolder.
  pose proof (albumByFolder_get inp f) as Hab.
  destruct (albumFiles inp f) as [|x files].
  - rewrite attach_fold_other; [apply beforeAlbum_get|].
    apply (get_None _ String.eqb_spec) in Hab. intros Hin. apply Hab.
    eapply Permutation_in; [|exact Hin].
    apply Permutation_map, entries_Permutation.
  - apply (get_Some_In _ String.eqb_spec), In_entries in Hab.
    rewrite (attach_fold_at _ _ f _ (NoDup_entries_keys _ (albumByFolder_NoDup inp)) Hab).
    now rewrite beforeAlbum_get.
Qed.
End AttachItem.

(** ** The two path patterns *)

Lemma stripPrefix_spec (p s r : string) :
  Js.stripPrefix p s = Some r <-> s = p +:+ r.
Proof.
  revert s. induction p as [|a p IH]; intros s; simpl.
  - split; [now intros [= ->] | now intros ->].
  - destruct s as [|b s]; [split; discriminate|].
    destruct (Ascii.eqb_spec a b) as [->|Hne].
    + rewrite IH. split; [now intros -> | now intros [= ->]].
    + split; [discriminate | intros [= E _]; congruence].
Qed.

Lemma spanNoSlash_spec (s a b : string) :
  Js.spanNoSlash s = (a, b) ->
  s = a +:+ b /\ containsChar "/" a = false /\ (b = "" \/ exists r, b = String "/" r).
Proof.
  revert a b. induction s as [|c s IH]; intros a b; simpl.
  - intros [= <- <-]. auto.
  - destruct (Ascii.eqb_spec c "/") as [->|Hne].
    + intros [= <- <-]. simpl. eauto.
    + destruct (Js.spanNoSlash s) as [a' b'] eqn:E. intros [= <- <-].
      destruct (IH a' b' eq_refl) as (-> & Ha & Hb). simpl.
      repeat split; auto.
      destruct (Ascii.eqb_spec c "/"); [contradiction | exact Ha].
Qed.

Lemma spanNoSlash_slash (a r : string) :
  containsChar "/" a = false ->
  Js.spanNoSlash (a +:+ String "/" r) = (a, String "/" r).
Proof.
  induction a as [|c a IH]; simpl; [reflexivity|].
  destruct (Ascii.eqb c "/"); simpl; [discriminate|].
  intros H. now rewrite IH.
Qed.

Lemma spanNoSlash_all (a : string) :
  containsChar "/" a = false -> Js.spanNoSlash a = (a, "").
Proof.
  induction a as [|c a IH]; simpl; [reflexivity|].
  destruct (Ascii.eqb c "/"); simpl; [discriminate|].
  intros H. now rewrite IH.
Qed.

Lemma append_nil_r (s : string) : s +:+ "" = s.
Proof.
  induction s as [|c s IH]; [reflexivity|].
  change (String c s +:+ "") with (String c (s +:+ "")). now rewrite IH.
Qed.

Lemma append_nonempty_l (a b : string) : a <> "" -> a +:+ b <> "".
Proof. destruct a; [congruence | discriminate]. Qed.

Lemma folderMatch_spec (path folder : string) :
  folderMatch path = Some folder
  <-> folder <> "" /\ containsChar "/" folder = false
      /\ exists rest, path = "/pages/" +:+ folder +:+ "/" +:+ rest.
Proof.
  unfold folderMatch. split.
  - destruct (Js.stripPrefix "/pages/" path) as [r|] eqn:Ep; [|discriminate].
    apply stripPrefix_spec in Ep as ->.
    destruct (Js.spanNoSlash r) as [a b] eqn:Es.
    apply spanNoSlash_spec in Es as (-> & Ha & Hb).
    destruct a as [|c a]; [discriminate|].
    destruct b as [|c' b]; [discriminate|].
    destruct Hb as [Hb|[r' [= -> ->]]]; [discriminate|].
    intros [= <-]. repeat split; [discriminate | exact Ha | now exists r'].
  - intros (Hne & Hs & rest & ->).
    rewrite (proj2 (stripPrefix_spec "/pages/" _ (folder +:+ "/" +:+ rest)) eq_refl).
    change ("/" +:+ rest) with (String "/" rest). rewrite spanNoSlash_slash by exact Hs.
    destruct folder; [congruence | reflexivity].
Qed.

Lemma albumMatch_spec (path folder file : string) :
  albumMatch path = Some (folder, file)
  <-> folder <> "" /\ containsChar "/" folder = false
      /\ file <> "" /\ containsChar "/" file = false
      /\ path = "/pages/" +:+ folder +:+ "/" +:+ file.
Proof.
  unfold albumMatch. split.
  - destruct (Js.stripPrefix "/pages/" path) as [r|] eqn:Ep; [|discriminate].
    apply stripPrefix_spec in Ep as ->.
    destruct (Js.spanNoSlash r) as [a b] eqn:Es.
    apply spanNoSlash_spec in Es as (-> & Ha & Hb).
    destruct a as [|c a]; [discriminate|].
    destruct b as [|c' b]; [discriminate|].
    destruct Hb as [Hb|[r' [= -> ->]]]; [discriminate|].
    destruct (Js.spanNoSlash r') as [a' b'] eqn:Es'.
    apply spanNoSlash_spec in Es' as (-> & Ha' & Hb').
    destruct a' as [|d a']; [discriminate|].
    destruct b' as [|d' b']; [|discriminate].
    intros [= <- <-]. rewrite append_nil_r.
    repeat split; try discriminate; auto.
  - intros (Hne & Hs & Hne' & Hs' & ->).
    rewrite (proj2 (stripPrefix_spec "/pages/" _ (folder +:+ "/" +:+ file)) eq_refl).
    change ("/" +:+ file) with (String "/" file). rewrite spanNoSlash_slash by exact Hs.
    destruct folder as [|c folder]; [congruence|].
    rewrite spanNoSlash_all by exact Hs'.
    destruct file; [congruence | reflexivity].
Qed.

(** X1: the two path patterns accept exactly the paths under
    [/pages/<folder>/]: [folderMatch] returns the folder of any path whose
    first segment after [/pages/] is non-empty and followed by a slash;
    [albumMatch] returns folder and file name exactly for
    [/pages/<folder>/<file>] with both non-empty and free of slashes, and
    then [folderMatch] finds the same folder. *)
Theorem path_patterns_parse_pages_paths (path folder file : string) :
  (folderMatch path = Some folder
   <-> folder <> "" /\ containsChar "/" folder = false
       /\ exists rest, path = "/pages/" +:+ folder +:+ "/" +:+ rest)
  /\ (albumMatch path = Some (folder, file)
      <-> folder <> "" /\ containsChar "/" folder = false
          /\ file <> "" /\ containsChar "/" file = false
          /\ path = "/pages/" +:+ folder +:+ "/" +:+ file)
  /\ (albumMatch path = Some (folder, file) -> folderMatch path = Some folder).
Proof.
  split; [apply folderMatch_spec|]. split; [apply albumMatch_spec|].
  intros H. apply albumMatch_spec in H as (Hf & Hsf & _ & _ & ->).
  apply folderMatch_spec. repeat split; auto. now exists file.
Qed.

Lemma path_patterns_parse_pages_paths_witness :
  folderMatch "/pages/gat/main.png" = Some "gat"
  /\ albumMatch "/pages/gat/main.png" = Some ("gat", "main.png").
Proof.
  destruct (path_patterns_parse_pages_paths "/pages/gat/main.png" "gat" "main.png")
    as (Hf & Ha & _).
  split.
  - apply Hf. repeat split; [discriminate|]. now exists "main.png".
  - apply Ha. repeat split; discriminate.
Defined.

(** ** More properties of the catalogue loader *)

Lemma inFolder_folder {V : Type} (f : string) (es : Obj V) :
  omap (inFolder f) es <> [] -> f <> "" /\ containsChar "/" f = false.
Proof.
  induction es as [|e es IH]; simpl; [congruence|].
  unfold inFolder at 1. destruct (folderMatch e.1) as [f'|] eqn:E; [|exact IH].
  destruct (String.eqb_spec f' f) as [->|Hne]; [|exact IH].
  intros _. apply folderMatch_spec in E. tauto.
Qed.

Lemma last_ofFolder {V : Type} (f : string) (o : Obj V) (v : V) :
  last (ofFolder f o) = Some v -> f <> "" /\ containsChar "/" f = false.
Proof.
  intros H. apply (inFolder_folder f (Js.entries o)).
  fold (ofFolder f o). destruct (ofFolder f o); [discriminate | congruence].
Qed.

Lemma albumFiles_folder (inp : Inputs) (f : string) :
  albumFiles inp f <> [] -> f <> "" /\ containsChar "/" f = false.
Proof.
  unfold albumFiles.
  induction (Js.entries (albumImageModules inp)) as [|e es IH]; simpl; [congruence|].
  unfold fileOf at 1. destruct (albumMatch e.1) as [[f' file]|] eqn:E; [|exact IH].
  destruct (String.eqb_spec f' f) as [->|Hne]; [|exact IH].
  intros _. apply albumMatch_spec in E. tauto.
Qed.

Lemma beforeAlbum_fields (inp : Inputs) (f : string) (w : WorkItem) :
  beforeAlbum inp f = Some w ->
  slug w = f /\ folderPath w = "/pages/" +:+ f
  /\ meta w = default (placeholderMeta f) (jsonOf inp f)
  /\ mainImageUrl w = mainOf inp f
  /\ main2ImageUrl w = main2Of inp f
  /\ albumImageUrls w = [].
Proof.
  unfold beforeAlbum.
  destruct (jsonOf inp f), (mainOf inp f), (main2Of inp f); simpl;
    intros [= <-]; repeat split.
Qed.

Lemma beforeAlbum_None (inp : Inputs) (f : string) :
  beforeAlbum inp f = None ->
  jsonOf inp f = None /\ mainOf inp f = None /\ main2Of inp f = None.
Proof.
  unfold beforeAlbum.
  destruct (jsonOf inp f), (mainOf inp f), (main2Of inp f); simpl;
    try discriminate; auto.
Qed.

Lemma beforeAlbum_folder (inp : Inputs) (f : string) (w : WorkItem) :
  beforeAlbum inp f = Some w -> f <> "" /\ containsChar "/" f = false.
Proof.
  unfold beforeAlbum, jsonOf, mainOf, main2Of.
  destruct (last (ofFolder f (jsonModules inp))) eqn:E1;
    [intros _; exact (last_ofFolder _ _ _ E1)|].
  destruct (last (ofFolder f (mainImageModules inp))) eqn:E2;
    [intros _; exact (last_ofFolder _ _ _ E2)|].
  destruct (last (ofFolder f (main2ImageModules inp))) eqn:E3;
    [intros _; exact (last_ofFolder _ _ _ E3)|].
  discriminate.
Qed.

Section Items.
Variable localeCompare : string -> string -> Z.

(** The fields of a folder's item that the album does not touch. *)
Lemma item_fields (inp : Inputs) (f : string) (w : WorkItem) :
  objGet f (worksByFolder localeCompare inp) = Some w ->
  f <> "" /\ containsChar "/" f = false
  /\ slug w = f /\ folderPath w = "/pages/" +:+ f
  /\ meta w = default (placeholderMeta f) (jsonOf inp f)
  /\ main2ImageUrl w = main2Of inp f.
Proof.
  rewrite worksByFolder_get.
  destruct (albumFiles inp f) as [|x files] eqn:Ef.
  - intros Hb. destruct (beforeAlbum_fields inp f w Hb) as (? & ? & ? & ? & ? & ?).
    destruct (beforeAlbum_folder inp f w Hb). repeat split; auto.
  - assert (Hf : f <> "" /\ containsChar "/" f = false)
      by (apply (albumFiles_folder inp); congruence).
    destruct (beforeAlbum inp f) as [w0|] eqn:Hb; simpl.
    + destruct (beforeAlbum_fields inp f w0 Hb) as (? & ? & ? & ? & ? & ?).
      destruct (negb _ && _); intros [= <-]; simpl; tauto.
    + destruct (beforeAlbum_None inp f Hb) as (-> & _ & ->).
      intros [= <-]. simpl. tauto.
Qed.

(** The main image of a folder's item. *)
Lemma item_main (inp : Inputs) (f : string) (w : WorkItem) :
  objGet f (worksByFolder localeCompare inp) = Some w ->
  mainImageUrl w
  = match mainOf inp f with
    | Some u => if Js.truthy u then Some u
                else match albumImageUrls w with [] => Some u | x :: _ => Some x end
    | None => match jsonOf inp f, main2Of inp f with
              | None, None => None
              | _, _ => head (albumImageUrls w)
              end
    end.
Proof.
  rewrite worksByFolder_get.
  destruct (albumFiles inp f) as [|x files] eqn:Ef.
  - intros Hb. destruct (beforeAlbum_fields inp f w Hb) as (_ & _ & _ & Hm & _ & Ha).
    rewrite Hm, Ha.
    destruct (mainOf inp f) as [u|] eqn:Em; [now destruct (Js.truthy u)|].
    now destruct (jsonOf inp f), (main2Of inp f).
  - destruct (beforeAlbum inp f) as [w0|] eqn:Hb; simpl.
    + destruct (beforeAlbum_fields inp f w0 Hb) as (_ & _ & _ & Hm & _ & _).
      rewrite Hm.
      assert (Hsome : mainOf inp f = None ->
                      match jsonOf inp f, main2Of inp f with
                      | None, None => False | _, _ => True end).
      { intros Em. revert Hb. unfold beforeAlbum. rewrite Em.
        destruct (jsonOf inp f), (main2Of inp f); simpl; auto; discriminate. }
      destruct (mainOf inp f) as [u|]; simpl.
      * destruct (Js.truthy u); simpl.
        -- intros [= <-]. simpl. now rewrite Hm.
        -- destruct (0 <? _) eqn:El; intros [= <-]; simpl.
           ++ destruct (sortAlbum localeCompare _) eqn:Es; [discriminate El | reflexivity].
           ++ rewrite Hm. destruct (sortAlbum localeCompare _) eqn:Es; [reflexivity|].
              simpl in El. apply Z.ltb_ge in El. lia.
      * specialize (Hsome eq_refl).
        destruct (0 <? _) eqn:El; intros [= <-]; simpl.
        -- destruct (jsonOf inp f), (main2Of inp f); tauto.
        -- rewrite Hm. destruct (sortAlbum localeCompare _) eqn:Es.
           ++ now destruct (jsonOf inp f), (main2Of inp f).
           ++ simpl in El. apply Z.ltb_ge in El. lia.
    + destruct (beforeAlbum_None inp f Hb) as (-> & -> & ->).
      now intros [= <-].
Qed.
End Items.

(** X2: the items [buildWorks] returns identify their folders: no two
    share a slug, every slug is a non-empty folder name without a slash,
    and the folder path is [/pages/] followed by the slug. *)
Theorem items_identify_their_folders
    (localeCompare : string -> string -> Z) (inp : Inputs) :
  List.NoDup (map slug (buildWorks localeCompare inp))
  /\ forall w, In w (buildWorks localeCompare inp) ->
       slug w <> "" /\ containsChar "/" (slug w) = false
       /\ folderPath w = "/pages/" +:+ slug w.
Proof.
  split; [apply buildWorks_NoDup|].
  intros w Hin. apply buildWorks_get in Hin.
  destruct (item_fields _ _ _ _ Hin) as (? & ? & ? & ? & _). auto.
Qed.

(** X3: the metadata of a returned item is the last metadata record
    enumerated for its folder; a folder without one gets the placeholder
    whose name is the slug and which has no city, address, texts, year or
    month. *)
Theorem metadata_is_last_record_or_placeholder
    (localeCompare : string -> string -> Z) (inp : Inputs) (w : WorkItem) :
  In w (buildWorks localeCompare inp) ->
  match jsonOf inp (slug w) with
  | Some m => meta w = m
  | None => meta w = placeholderMeta (slug w) /\ nom (meta w) = slug w
  end.
Proof.
  intros Hin. apply buildWorks_get in Hin.
  destruct (item_fields _ _ _ _ Hin) as (_ & _ & _ & _ & Hm & _).
  rewrite Hm. destruct (jsonOf inp (slug w)); simpl; auto.
Qed.

Lemma metadata_is_last_record_or_placeholder_witness :
  meta sampleGat = metaOf "Gat" (YearString "2021") (MonthString "Maig").
Proof.
  apply (metadata_is_last_record_or_placeholder codeUnitCompare sampleInput sampleGat).
  vm_compute. left. reflexivity.
Defined.

(** X4: an explicit main image is never replaced by an album picture: the
    primary image of a returned item is the last [main.*] URL enumerated
    for its folder when there is one (and it is not the empty string), and
    its secondary image is the last [main2.*] URL, or unset without one. *)
Theorem explicit_main_images_are_kept
    (localeCompare : string -> string -> Z) (inp : Inputs) (w : WorkItem) :
  In w (buildWorks localeCompare inp) ->
  main2ImageUrl w = main2Of inp (slug w)
  /\ forall u, mainOf inp (slug w) = Some u -> u <> "" -> mainImageUrl w = Some u.
Proof.
  intros Hin. apply buildWorks_get in Hin.
  destruct (item_fields _ _ _ _ Hin) as (_ & _ & _ & _ & _ & Hm2).
  split; [exact Hm2|]. intros u Hu Hne.
  rewrite (item_main _ _ _ _ Hin), Hu.
  unfold Js.truthy. apply String.eqb_neq in Hne. now rewrite Hne.
Qed.

Lemma explicit_main_images_are_kept_witness :
  main2ImageUrl sampleGat = main2Of sampleInput (slug sampleGat)
  /\ mainImageUrl sampleGat = Some "/assets/main.png".
Proof.
  destruct (explicit_main_images_are_kept codeUnitCompare sampleInput sampleGat)
    as [H2 H1].
  - vm_compute. left. reflexivity.
  - split; [exact H2|]. apply H1; [reflexivity | discriminate].
Defined.

(** X5: without a [main.*] file, the primary image of a returned item is
    the first picture of its sorted album when the folder has a metadata
    record or a [main2.*] file (unset if the album is empty), and it is
    unset when the folder has neither. *)
Theorem missing_main_image_falls_back_to_album
    (localeCompare : string -> string -> Z) (inp : Inputs) (w : WorkItem) :
  In w (buildWorks localeCompare inp) ->
  mainOf inp (slug w) = None ->
  mainImageUrl w
  = match jsonOf inp (slug w), main2Of inp (slug w) with
    | None, None => None
    | _, _ => head (albumImageUrls w)
    end.
Proof.
  intros Hin Hnone. apply buildWorks_get in Hin.
  now rewrite (item_main _ _ _ _ Hin), Hnone.
Qed.

(** X6: the album of a returned item has one picture per album file of
    its folder; when no URL of the folder contains ['#'], it is a
    rearrangement of exactly those URLs, whatever the file names are. *)
Theorem album_holds_each_picture_once
    (localeCompare : string -> string -> Z) (inp : Inputs) (w : WorkItem) :
  In w (buildWorks localeCompare inp) ->
  length (albumImageUrls w) = length (albumFiles inp (slug w))
  /\ ((forall f, In f (albumFiles inp (slug w)) -> noHash f.2) ->
      Permutation (albumImageUrls w) (map snd (albumFiles inp (slug w)))).
Proof.
  intros Hin. apply buildWorks_get in Hin. apply worksByFolder_album in Hin.
  assert (E : albumImageUrls w
              = sortAlbum localeCompare (map tagFile (albumFiles inp (slug w)))).
  { rewrite Hin. now destruct (albumFiles inp (slug w)). }
  rewrite E. unfold sortAlbum. split.
  - rewrite length_map, (Permutation_length (sort_Permutation _ _)).
    apply length_map.
  - intros Hh. rewrite (sort_Permutation (cmpAlbum localeCompare)).
    rewrite map_map. apply Permutation_refl'.
    apply map_ext_in. intros f Hf. apply untag_tagUrl. now apply Hh.
Qed.

Lemma album_holds_each_picture_once_witness :
  length (albumImageUrls sampleGat) = length (albumFiles sampleInput (slug sampleGat)).
Proof.
  apply (proj1 (album_holds_each_picture_once codeUnitCompare sampleInput sampleGat
                  ltac:(vm_compute; left; reflexivity))).
Defined.

Lemma missing_main_image_falls_back_to_album_witness :
  mainImageUrl noMainItem = head (albumImageUrls noMainItem).
Proof.
  apply (missing_main_image_falls_back_to_album codeUnitCompare noMainInput noMainItem).
  - vm_compute. left. reflexivity.
  - reflexivity.
Defined.

(** X7: the only merged items the filter drops are those of folders whose
    metadata record has an empty name and that have no album picture and
    no main image (or an empty main URL). *)
Theorem only_nameless_pictureless_items_are_dropped
    (localeCompare : string -> string -> Z) (inp : Inputs) (f : string) (w : WorkItem) :
  objGet f (worksByFolder localeCompare inp) = Some w ->
  ~ In w (buildWorks localeCompare inp) ->
  (exists m, jsonOf inp f = Some m /\ nom m = "")
  /\ albumFiles inp f = []
  /\ (forall u, mainOf inp f = Some u -> u = "").
Proof.
  intros Hget Hout.
  assert (Hkeep : keep w = false).
  { destruct (keep w) eqn:E; [|reflexivity]. exfalso. apply Hout.
    unfold buildWorks. rewrite In_sort, filter_In. split; [|exact E].
    apply In_values. exists f. now apply (get_Some_In _ String.eqb_spec). }
  unfold keep in Hkeep. apply orb_false_iff in Hkeep as [Hkeep Halbum].
  apply orb_false_iff in Hkeep as [Hnom Hmain].
  destruct (item_fields _ _ _ _ Hget) as (Hf & _ & _ & _ & Hm & _).
  pose proof (worksByFolder_album _ _ _ _ Hget) as Ha.
  pose proof (item_main _ _ _ _ Hget) as Hmn.
  unfold Js.truthy in Hnom. apply negb_false_iff, String.eqb_eq in Hnom.
  apply Z.ltb_ge in Halbum.
  assert (Hal : albumImageUrls w = []) by (destruct (albumImageUrls w); [reflexivity | simpl in Halbum; lia]).
  repeat split.
  - rewrite Hm in Hnom. destruct (jsonOf inp f) as [m|]; [now exists m|].
    simpl in Hnom. congruence.
  - destruct (albumFiles inp f) as [|x files]; [reflexivity|]. exfalso.
    rewrite Hal in Ha. apply (f_equal (@length string)) in Ha.
    unfold sortAlbum in Ha.
    rewrite length_map, (Permutation_length (sort_Permutation _ _)) in Ha.
    discriminate Ha.
  - intros u Hu. rewrite Hu, Hal in Hmn.
    destruct (Js.truthy u) eqn:Et.
    + rewrite Hmn in Hmain. simpl in Hmain. congruence.
    + unfold Js.truthy in Et. now apply negb_false_iff, String.eqb_eq in Et.
Qed.

Lemma only_nameless_pictureless_items_are_dropped_witness :
  (exists m, jsonOf sampleInput "buit" = Some m /\ nom m = "")
  /\ albumFiles sampleInput "buit" = []
  /\ (forall u, mainOf sampleInput "buit" = Some u -> u = "").
Proof.
  apply (only_nameless_pictureless_items_are_dropped codeUnitCompare sampleInput
           "buit" sampleBuit).
  - reflexivity.
  - vm_compute. intros [H|[]]. discriminate H.
Defined.

(** ** The order of the catalogue *)

Section SortOn.
Context {A : Type} (cmp : A -> A -> Z) (P : A -> Prop).
Hypothesis cmp_total : forall a b, P a -> P b -> 0 < cmp a b -> cmp b a <= 0.
Hypothesis cmp_trans : forall a b c, P a -> P b -> P c ->
  cmp a b <= 0 -> cmp b c <= 0 -> cmp a c <= 0.

Lemma insert_StronglySorted_on (x : A) (l : list A) :
  P x -> Forall P l ->
  StronglySorted (cmpLe cmp) l -> StronglySorted (cmpLe cmp) (Js.insert cmp x l).
Proof.
  intros Hx Hl Hs. induction Hs as [|y l Hs IH Hy]; simpl.
  - repeat constructor.
  - apply Forall_cons_iff in Hl as [Py Pl].
    destruct (Z.leb_spec (cmp x y) 0) as [Hxy|Hxy].
    + constructor; [now constructor|].
      constructor; [exact Hxy|].
      rewrite List.Forall_forall in *. intros z Hz.
      eapply (cmp_trans x y z); auto. exact (Hy z Hz).
    + constructor; [now apply IH|].
      eapply Permutation_Forall; [symmetry; apply insert_Permutation|].
      constructor; [now apply cmp_total | exact Hy].
Qed.

(** The sort orders a list on whose elements the comparator is
    consistent. *)
Lemma sort_StronglySorted_on (l : list A) :
  Forall P l -> StronglySorted (cmpLe cmp) (Js.sort cmp l).
Proof.
  induction 1 as [|x l Hx Hl IH]; simpl; [constructor|].
  apply insert_StronglySorted_on; auto.
  eapply Permutation_Forall; [symmetry; apply sort_Permutation | exact Hl].
Qed.
End SortOn.

Lemma indexOf_range (l : list string) (x : string) :
  Js.indexOf l x = -1 \/ 0 <= Js.indexOf l x.
Proof.
  induction l as [|y l IH]; simpl; [now left|].
  destruct (String.eqb y x); [right; lia|].
  destruct (Z.eqb_spec (Js.indexOf l x) (-1)); [now left | right; lia].
Qed.

(** An element has one position. *)
Lemma indexOf_inj (l : list string) (x y : string) :
  Js.indexOf l x <> -1 -> Js.indexOf l x = Js.indexOf l y -> x = y.
Proof.
  induction l as [|z l IH]; simpl; [congruence|].
  destruct (String.eqb_spec z x) as [Ex|Hx], (String.eqb_spec z y) as [Ey|Hy].
  - congruence.
  - destruct (Z.eqb_spec (Js.indexOf l y) (-1)); [lia|].
    destruct (indexOf_range l y); lia.
  - destruct (Z.eqb_spec (Js.indexOf l x) (-1)); [congruence|].
    destruct (indexOf_range l x); lia.
  - destruct (Z.eqb_spec (Js.indexOf l x) (-1)); [congruence|].
    destruct (Z.eqb_spec (Js.indexOf l y) (-1)); [destruct (indexOf_range l x); lia|].
    intros _ E. apply IH; [assumption | lia].
Qed.

Section WorkOrder.
Variable localeCompare : string -> string -> Z.
Hypothesis lc_total : forall a b, 0 < localeCompare a b -> localeCompare b a <= 0.
Hypothesis lc_trans : forall a b c,
  localeCompare a b <= 0 -> localeCompare b c <= 0 -> localeCompare a c <= 0.

Lemma cmpWorks_orderable (a b : WorkItem) :
  orderable a -> orderable b ->
  cmpWorks localeCompare a b
  = if listed a
    then if listed b
         then Js.indexOf priorityOrder (slug a) - Js.indexOf priorityOrder (slug b)
         else -1
    else if listed b then 1
         else if yearNumber a =? yearNumber b
              then localeCompare (nameOf a) (nameOf b)
              else yearNumber b - yearNumber a.
Proof.
  unfold orderable, cmpWorks, listed, finiteYear, yearNumber.
  destruct (Js.indexOf priorityOrder (slug a) =? -1),
           (Js.indexOf priorityOrder (slug b) =? -1); simpl; try reflexivity.
  intros [Ha|Ha] [Hb|Hb]; try discriminate.
  destruct (yearOf (year (meta a))); try discriminate.
  destruct (yearOf (year (meta b))); try discriminate.
  now destruct (n =? n0).
Qed.

Lemma cmpWorks_total (a b : WorkItem) :
  orderable a -> orderable b ->
  0 < cmpWorks localeCompare a b -> cmpWorks localeCompare b a <= 0.
Proof.
  intros Ha Hb. rewrite !cmpWorks_orderable by assumption.
  destruct (listed a), (listed b); try lia.
  rewrite (Z.eqb_sym (yearNumber b)).
  destruct (Z.eqb_spec (yearNumber a) (yearNumber b)); [apply lc_total | lia].
Qed.

Lemma cmpWorks_trans (a b c : WorkItem) :
  orderable a -> orderable b -> orderable c ->
  cmpWorks localeCompare a b <= 0 -> cmpWorks localeCompare b c <= 0 ->
  cmpWorks localeCompare a c <= 0.
Proof.
  intros Ha Hb Hc. rewrite !cmpWorks_orderable by assumption.
  destruct (listed a), (listed b), (listed c); try lia.
  destruct (Z.eqb_spec (yearNumber a) (yearNumber b)),
           (Z.eqb_spec (yearNumber b) (yearNumber c)),
           (Z.eqb_spec (yearNumber a) (yearNumber c)); try lia.
  apply lc_trans.
Qed.

(** A list of orderable items that the comparator has sorted is the
    listed items, in the order of the priority list, followed by the
    others, by descending year and then by name. *)
Lemma sorted_works_split (l : list WorkItem) :
  Forall orderable l ->
  StronglySorted (cmpLe (cmpWorks localeCompare)) l ->
  exists prio rest,
    l = (prio ++ rest)%list
    /\ Forall (fun w => listed w = true) prio
    /\ Forall (fun w => listed w = false) rest
    /\ StronglySorted (fun a b => Js.indexOf priorityOrder (slug a)
                                  <= Js.indexOf priorityOrder (slug b)) prio
    /\ StronglySorted (byYearThenName localeCompare) rest.
Proof.
  intros Hall Hs. induction Hs as [|x l Hs IH Hx].
  - exists [], []. repeat split; constructor.
  - apply Forall_cons_iff in Hall as [Ox Ol].
    destruct (IH Ol) as (prio & rest & -> & Hp & Hr & Sp & Sr).
    apply Forall_app in Hx as [Hxp Hxr]. apply Forall_app in Ol as [Op Or].
    destruct (listed x) eqn:Ex.
    + exists (x :: prio), rest. repeat split; auto.
      constructor; [exact Sp|].
      rewrite List.Forall_forall in *. intros y Hy.
      specialize (Hxp y Hy). unfold cmpLe in Hxp.
      rewrite cmpWorks_orderable in Hxp by auto.
      rewrite Ex, (Hp y Hy) in Hxp. lia.
    + assert (prio = []) as ->.
      { destruct prio as [|y prio]; [reflexivity|]. exfalso.
        apply Forall_cons_iff in Hxp as [Hxy _].
        apply Forall_cons_iff in Hp as [Hy _].
        apply Forall_cons_iff in Op as [Oy _].
        unfold cmpLe in Hxy. rewrite cmpWorks_orderable in Hxy by auto.
        rewrite Ex, Hy in Hxy. lia. }
      exists [], (x :: rest). simpl. repeat split; auto.
      constructor; [exact Sr|].
      rewrite List.Forall_forall in *. intros y Hy.
      specialize (Hxr y Hy). unfold cmpLe in Hxr.
      rewrite cmpWorks_orderable in Hxr by auto.
      rewrite Ex, (Hr y Hy) in Hxr. unfold byYearThenName.
      destruct (Z.eqb_spec (yearNumber x) (yearNumber y)); [right; auto | left; lia].
Qed.
End WorkOrder.

(** Among items with distinct slugs, the order of the priority list is
    strict. *)
Lemma priority_order_strict (l : list WorkItem) :
  List.NoDup (map slug l) ->
  Forall (fun w => listed w = true) l ->
  StronglySorted (fun a b => Js.indexOf priorityOrder (slug a)
                             <= Js.indexOf priorityOrder (slug b)) l ->
  StronglySorted byPriority l.
Proof.
  intros Hnd Hl Hs. induction Hs as [|x l Hs IH Hx]; [constructor|].
  simpl in Hnd. apply List.NoDup_cons_iff in Hnd as [Hnx Hnd].
  apply Forall_cons_iff in Hl as [Lx Ll].
  constructor; [now apply IH|].
  rewrite List.Forall_forall in *. intros y Hy. unfold byPriority.
  specialize (Hx y Hy).
  destruct (Z.eq_dec (Js.indexOf priorityOrder (slug x)) (Js.indexOf priorityOrder (slug y)))
    as [E|E]; [|lia].
  exfalso. apply Hnx. apply indexOf_inj in E.
  - rewrite E. now apply in_map.
  - unfold listed in Lx. apply negb_true_iff, Z.eqb_neq in Lx. exact Lx.
Qed.

(** X8: when every returned item that is off the priority list has a
    finite year, [buildWorks] returns the items of the priority list
    first, in the order of that list, and then the others by descending
    year, those of one year in the collation order of their names. *)
Theorem works_ordered_by_priority_year_name
    (localeCompare : string -> string -> Z)
    (lc_total : forall a b, 0 < localeCompare a b -> localeCompare b a <= 0)
    (lc_trans : forall a b c,
        localeCompare a b <= 0 -> localeCompare b c <= 0 -> localeCompare a c <= 0)
    (inp : Inputs) :
  (forall w, In w (buildWorks localeCompare inp) ->
             listed w = true \/ finiteYear w = true) ->
  exists prio rest,
    buildWorks localeCompare inp = (prio ++ rest)%list
    /\ Forall (fun w => listed w = true) prio
    /\ Forall (fun w => listed w = false) rest
    /\ StronglySorted byPriority prio
    /\ StronglySorted (byYearThenName localeCompare) rest.
Proof.
  intros Hall.
  assert (Hin : Forall orderable (List.filter keep (Js.values (worksByFolder localeCompare inp)))).
  { apply List.Forall_forall. intros w Hw. apply Hall.
    unfold buildWorks. now apply In_sort. }
  pose proof (sort_StronglySorted_on (cmpWorks localeCompare) orderable
                (cmpWorks_total localeCompare lc_total)
                (cmpWorks_trans localeCompare lc_trans) _ Hin) as Hs.
  fold (buildWorks localeCompare inp) in Hs.
  destruct (sorted_works_split localeCompare (buildWorks localeCompare inp))
    as (prio & rest & E & Hp & Hr & Sp & Sr).
  { apply List.Forall_forall. exact Hall. }
  { exact Hs. }
  exists prio, rest. repeat split; auto.
  apply priority_order_strict; auto.
  pose proof (buildWorks_NoDup localeCompare inp) as Hnd.
  rewrite E, map_app in Hnd. now apply NoDup_app_remove_r in Hnd.
Qed.

Lemma works_ordered_by_priority_year_name_witness :
  map slug (buildWorks codeUnitCompare orderedInput) = ["lleo"; "oliba"; "bou"; "gat"; "pi"]
  /\ exists prio rest,
       buildWorks codeUnitCompare orderedInput = (prio ++ rest)%list
       /\ Forall (fun w => listed w = true) prio
       /\ Forall (fun w => listed w = false) rest
       /\ StronglySorted byPriority prio
       /\ StronglySorted (byYearThenName codeUnitCompare) rest.
Proof.
  split; [reflexivity|].
  apply (works_ordered_by_priority_year_name codeUnitCompare
           codeUnitCompare_total codeUnitCompare_trans orderedInput).
  intros w Hw. vm_compute in Hw.
  destruct Hw as [<-|[<-|[<-|[<-|[<-|[]]]]]]; vm_compute; auto.
Defined.

(** ** More properties of the timeline *)

Lemma StronglySorted_strengthen {A K : Type} (key : A -> K) (R R' : A -> A -> Prop)
    (l : list A) :
  List.NoDup (map key l) ->
  (forall a b, In a l -> In b l -> R a b -> key a <> key b -> R' a b) ->
  StronglySorted R l -> StronglySorted R' l.
Proof.
  intros Hnd Himp Hs. induction Hs as [|x l Hs IH Hx]; [constructor|].
  simpl in Hnd. apply List.NoDup_cons_iff in Hnd as [Hnx Hnd].
  constructor.
  - apply IH; [exact Hnd|]. intros a b Ha Hb. apply Himp; now right.
  - rewrite List.Forall_forall in *. intros y Hy.
    apply Himp; [now left | now right | now apply Hx|].
    intros E. apply Hnx. rewrite E. now apply in_map.
Qed.



Lemma filter_or_disjoint {A : Type} (p q : A -> bool) (l : list A) :
  (forall x, In x l -> p x = true -> q x = true -> False) ->
  Permutation (List.filter (fun x => p x || q x) l)
              (List.filter p l ++ List.filter q l).
Proof.
  induction l as [|x l IH]; intros Hd; simpl; [constructor|].
  assert (IH' := IH (fun y Hy => Hd y (or_intror Hy))).
  destruct (p x) eqn:Ep, (q x) eqn:Eq; simpl.
  - exfalso. exact (Hd x (or_introl eq_refl) Ep Eq).
  - now constructor.
  - rewrite IH'. apply Permutation_middle.
  - exact IH'.
Qed.

(** Buckets with different keys share no work, so all of them together
    hold each work that has one of the keys once. *)
Lemma buckets_partition {A K : Type} (sel : K -> A -> bool) (ks : list K) (l : list A) :
  List.NoDup ks ->
  (forall k k' x, sel k x = true -> sel k' x = true -> k = k') ->
  Permutation (flat_map (fun k => List.filter (sel k) l) ks)
              (List.filter (fun x => existsb (fun k => sel k x) ks) l).
Proof.
  intros Hnd Hone. induction Hnd as [|k ks Hk Hnd IH]; simpl.
  - induction l as [|x l IHl]; simpl; [constructor | exact IHl].
  - rewrite IH. symmetry. apply filter_or_disjoint.
    intros x _ Hx Hex. apply existsb_exists in Hex as (k' & Hk' & Hs).
    rewrite (Hone _ _ _ Hx Hs) in Hk. contradiction.
Qed.




(** X11: the month names the views display parse back to their month: for
    both languages and every month index 0..11, [getMonthName] is a
    non-empty name on which [monthToIndex] returns that index; for any
    other index [getMonthName] is the empty string. *)
Theorem month_names_parse_back (language : Language) (i : Z) :
  (0 <= i <= 11 ->
   getMonthName language i <> ""
   /\ monthToIndex (MonthString (getMonthName language i)) = Some i)
  /\ (~ 0 <= i <= 11 -> getMonthName language i = "").
Proof.
  split.
  - intros Hi.
    assert (Hcases : i = 0 \/ i = 1 \/ i = 2 \/ i = 3 \/ i = 4 \/ i = 5 \/ i = 6
                     \/ i = 7 \/ i = 8 \/ i = 9 \/ i = 10 \/ i = 11) by lia.
    destruct language;
      repeat (destruct Hcases as [->|Hcases]; [split; [discriminate | vm_compute; reflexivity]|]);
      subst i; split; [discriminate | vm_compute; reflexivity | discriminate | vm_compute; reflexivity].
  - intros Hi. unfold getMonthName.
    destruct (Z.ltb_spec i 0) as [Hneg|Hpos]; [reflexivity|].
    rewrite lookup_ge_None_2; [reflexivity|].
    destruct language; simpl; lia.
Qed.

Lemma month_names_parse_back_witness :
  getMonthName catala 4 <> ""
  /\ monthToIndex (MonthString (getMonthName catala 4)) = Some 4.
Proof.
  apply (proj1 (month_names_parse_back catala 4)). lia.
Defined.

(** *** The path of the timeline *)







(** ** More properties of the calendar *)

Lemma calendar_years (works : list WorkItem) (acc : list (Z * list WorkItem)) (y : Z) :
  In y (map fst (fold_left Calendar.addWork works acc))
  <-> In y (map fst acc) \/ exists w, In w works /\ datedYear w = Some y.
Proof.
  revert acc. induction works as [|w works IH]; intros acc; simpl.
  - firstorder.
  - rewrite IH. unfold Calendar.addWork at 1.
    destruct (datedYear w) as [y'|] eqn:E.
    + rewrite (In_keys_set _ Z.eqb_spec). split.
      * intros [[->|H]|(w' & Hw' & Hy)]; eauto.
      * intros [H|(w' & [<-|Hw'] & Hy)]; eauto.
        left; left. congruence.
    + split.
      * intros [H|(w' & Hw' & Hy)]; eauto.
      * intros [H|(w' & [<-|Hw'] & Hy)]; eauto. congruence.
Qed.

Lemma calendar_NoDup (works : list WorkItem) :
  List.NoDup (map fst (fold_left Calendar.addWork works [])).
Proof.
  apply fold_left_invariant; [constructor|].
  intros a w Ha. unfold Calendar.addWork. destruct (datedYear w); [|exact Ha].
  now apply (NoDup_keys_set _ Z.eqb_spec).
Qed.

(** X13: the calendar has one group per year in which a work is dated,
    from the latest year to the earliest; a group holds exactly the works
    dated to its year, in catalogue order, and is never empty. *)
Theorem calendar_groups_by_descending_year (works : list WorkItem) :
  StronglySorted (fun a b : Z * list WorkItem => b.1 < a.1) (Calendar.groups works)
  /\ (forall y items, In (y, items) (Calendar.groups works) ->
        items = List.filter (datedTo y) works /\ items <> [])
  /\ (forall w y, In w works -> datedYear w = Some y ->
        exists items, In (y, items) (Calendar.groups works) /\ In w items).
Proof.
  split; [|split].
  - apply (StronglySorted_strengthen fst
             (cmpLe (fun a b : Z * list WorkItem => b.1 - a.1))).
    + eapply Permutation_NoDup; [|apply (calendar_NoDup works)].
      apply Permutation_map. symmetry. apply sort_Permutation.
    + intros a b _ _ Hab Hk. unfold cmpLe in Hab. lia.
    + unfold Calendar.groups. apply sort_StronglySorted; intros; lia.
  - intros y items Hin.
    pose proof (calendar_groups_items works y items Hin) as E. split; [exact E|].
    unfold Calendar.groups in Hin. rewrite In_sort in Hin.
    assert (Hy : In y (map fst (fold_left Calendar.addWork works [])))
      by (apply in_map_iff; now exists (y, items)).
    apply calendar_years in Hy as [[]|(w & Hw & Hd)].
    intros Hnil. rewrite Hnil in E.
    assert (Hf : In w (List.filter (datedTo y) works)).
    { apply filter_In. split; [exact Hw|]. unfold datedTo. rewrite Hd. apply Z.eqb_refl. }
    rewrite <- E in Hf. destruct Hf.
  - intros w y Hw Hd.
    destruct (zGet y (fold_left Calendar.addWork works [])) as [items|] eqn:Eg.
    + apply (get_Some_In _ Z.eqb_spec) in Eg.
      assert (Hin : In (y, items) (Calendar.groups works))
        by (unfold Calendar.groups; now apply In_sort).
      exists items. split; [exact Hin|].
      rewrite (calendar_groups_items works y items Hin).
      apply filter_In. split; [exact Hw|]. unfold datedTo. rewrite Hd. apply Z.eqb_refl.
    + apply (get_None _ Z.eqb_spec) in Eg. exfalso. apply Eg.
      apply calendar_years. right. eauto.
Qed.

Lemma calendar_groups_by_descending_year_witness :
  exists items, In (2020, items) (Calendar.groups twoWithoutMonth) /\ In om items.
Proof.
  destruct (calendar_groups_by_descending_year twoWithoutMonth) as (_ & _ & H).
  apply (H om 2020); [right; left |]; reflexivity.
Defined.










(** ** More properties of the geocoder and the map *)

Section GeoMore.
Variable Num : Type.
Variable parseFloat : string -> Num.
Variable fetch : nat -> string -> Geo.Response.

Local Abbreviation geocode := (Geo.geocode Num parseFloat fetch).
Local Abbreviation lookups := (Geo.lookups Num parseFloat fetch).
Local Abbreviation hits := (hits Num parseFloat fetch).
Local Abbreviation after := (after Num parseFloat fetch).

Lemma lookups_hits (addrs : list (WorkItem * string)) (st : Geo.State Num)
    (res : list (WorkItem * Geo.LatLng Num)) :
  lookups addrs st res = ((res ++ hits addrs st)%list, after addrs st).
Proof.
  revert st res. induction addrs as [|a addrs IH]; intros st res; simpl.
  - now rewrite app_nil_r.
  - destruct (geocode a.2 st) as [[p|] st']; simpl; rewrite IH; [|reflexivity].
    now rewrite <- app_assoc.
Qed.

(** A lookup never drops or changes a cached position. *)
Lemma geocode_cache_grows (q : string) (st : Geo.State Num) (k : string)
    (v : Geo.LatLng Num) :
  Geo.cache Num st !! k = Some v -> Geo.cache Num (geocode q st).2 !! k = Some v.
Proof.
  intros Hk. unfold Geo.geocode.
  destruct (Geo.cache Num st !! q) as [p|] eqn:Ec; [exact Hk|].
  destruct (fetch (length (Geo.requests Num st)) q) as [| | |[|hit data]]; simpl;
    try exact Hk.
  rewrite lookup_insert_ne; [exact Hk | congruence].
Qed.

Lemma geocode_storage (q : string) (st : Geo.State Num) :
  Geo.storage Num st = Geo.cache Num st ->
  Geo.storage Num (geocode q st).2 = Geo.cache Num (geocode q st).2.
Proof.
  intros Hs. unfold Geo.geocode.
  destruct (Geo.cache Num st !! q) as [p|]; [exact Hs|].
  destruct (fetch (length (Geo.requests Num st)) q) as [| | |[|hit data]]; simpl;
    auto.
Qed.

Lemma after_cache_grows (addrs : list (WorkItem * string)) (st : Geo.State Num)
    (k : string) (v : Geo.LatLng Num) :
  Geo.cache Num st !! k = Some v -> Geo.cache Num (after addrs st) !! k = Some v.
Proof.
  revert st. induction addrs as [|a addrs IH]; intros st Hk; simpl; [exact Hk|].
  apply IH. now apply geocode_cache_grows.
Qed.

Lemma after_storage (addrs : list (WorkItem * string)) (st : Geo.State Num) :
  Geo.storage Num st = Geo.cache Num st ->
  Geo.storage Num (after addrs st) = Geo.cache Num (after addrs st).
Proof.
  revert st. induction addrs as [|a addrs IH]; intros st Hs; simpl; [exact Hs|].
  apply IH. now apply geocode_storage.
Qed.

(** The hits are looked-up addresses, in their order, and their positions
    are in the cache at the end. *)
Lemma hits_sublist (addrs : list (WorkItem * string)) (st : Geo.State Num) :
  sublist (map fst (hits addrs st)) (map fst addrs).
Proof.
  revert st. induction addrs as [|a addrs IH]; intros st; simpl; [constructor|].
  destruct (geocode a.2 st) as [[p|] st']; simpl.
  - apply sublist_skip, IH.
  - apply sublist_cons, IH.
Qed.

Lemma hits_cached (addrs : list (WorkItem * string)) (st : Geo.State Num)
    (r : WorkItem * Geo.LatLng Num) :
  In r (hits addrs st) ->
  exists a, In a addrs /\ a.1 = r.1 /\ Geo.cache Num (after addrs st) !! a.2 = Some r.2.
Proof.
  revert st. induction addrs as [|a addrs IH]; intros st; simpl; [tauto|].
  pose proof (geocode_hit_cached Num parseFloat fetch a.2 st) as Hc.
  destruct (geocode a.2 st) as [[p|] st'] eqn:Eg; simpl in *.
  - intros [<-|Hr].
    + exists a. repeat split; [now left|]. apply after_cache_grows. now apply Hc.
    + destruct (IH st' Hr) as (a' & Ha' & E & Hk). exists a'. auto.
  - intros Hr. destruct (IH st' Hr) as (a' & Ha' & E & Hk). exists a'. auto.
Qed.

(** The requests a sequence of lookups sends: at most one per address, and
    none for a query that was cached at the start. *)
Lemma after_requests (addrs : list (WorkItem * string)) (st : Geo.State Num) :
  exists sent,
    Geo.requests Num (after addrs st) = (Geo.requests Num st ++ sent)%list
    /\ (length sent <= length addrs)%nat
    /\ forall q, In q sent -> Geo.cache Num st !! q = None /\ In q (map snd addrs).
Proof.
  revert st. induction addrs as [|a addrs IH]; intros st; simpl.
  - exists []. rewrite app_nil_r. split; [reflexivity|]. split; [simpl; lia|]. intros q [].
  - destruct (IH (geocode a.2 st).2) as (sent & Hr & Hl & Hq).
    destruct (Geo.cache Num st !! a.2) as [p|] eqn:Ec.
    + rewrite (geocode_cached Num parseFloat fetch a.2 st p Ec) in *. simpl in *.
      exists sent. split; [exact Hr|]. split; [lia|].
      intros q Hin. split; [now apply Hq | right; now apply Hq].
    + rewrite (geocode_uncached Num parseFloat fetch a.2 st Ec) in Hr.
      exists (a.2 :: sent). rewrite Hr, <- app_assoc.
      split; [reflexivity|]. split; [simpl; lia|].
      intros q [<-|Hin]; [split; [exact Ec | now left]|].
      destruct (Hq q Hin) as [Hn Hs]. split; [|now right].
      destruct (Geo.cache Num st !! q) as [v|] eqn:Eq; [|reflexivity].
      apply (geocode_cache_grows a.2) in Eq. congruence.
Qed.
End GeoMore.

Lemma addresses_sublist (works : list WorkItem) :
  sublist (map fst (Geo.addresses works)) works.
Proof.
  unfold Geo.addresses. induction works as [|w works IH]; simpl; [constructor|].
  destruct (Js.truthy (Geo.queryOf w)); simpl.
  - now apply sublist_skip.
  - now apply sublist_cons.
Qed.

Lemma addresses_query (works : list WorkItem) (a : WorkItem * string) :
  In a (Geo.addresses works) -> In a.1 works /\ a.2 = Geo.queryOf a.1 /\ a.2 <> "".
Proof.
  unfold Geo.addresses. intros Hin. apply filter_In in Hin as [Hin Ht].
  apply in_map_iff in Hin as (w & <- & Hin). simpl in *. repeat split; auto.
  unfold Js.truthy in Ht. now apply negb_true_iff, String.eqb_neq in Ht.
Qed.

(** X15: a run of the map's lookups never drops or changes a cached
    position, and keeps the persisted blob equal to the cache when it was
    so at the start (as it is when the effect starts from the blob). *)
Theorem run_keeps_cache_entries_and_persists_them
    (Num : Type) (parseFloat : string -> Num) (fetch : nat -> string -> Geo.Response)
    (works : list WorkItem) (st : Geo.State Num) :
  let st' := (Geo.run Num parseFloat fetch works st).2 in
  (forall k v, Geo.cache Num st !! k = Some v -> Geo.cache Num st' !! k = Some v)
  /\ (Geo.storage Num st = Geo.cache Num st -> Geo.storage Num st' = Geo.cache Num st').
Proof.
  unfold Geo.run. rewrite lookups_hits. simpl. split.
  - intros k v. apply after_cache_grows.
  - apply after_storage.
Qed.

Lemma run_keeps_cache_entries_and_persists_them_witness :
  let st' := (Geo.run unit (fun _ => tt) oneHit mapWorks (Geo.start unit ∅)).2 in
  Geo.storage unit st' = Geo.cache unit st'.
Proof.
  apply (proj2 (run_keeps_cache_entries_and_persists_them unit (fun _ => tt) oneHit
                  mapWorks (Geo.start unit ∅))).
  reflexivity.
Defined.

(** X16: the markers of the map stand for works of the catalogue, in
    catalogue order, that have an address or a city; the position of each
    is the one the cache holds for its query when the run ends. *)
Theorem markers_are_cached_hits_in_catalogue_order
    (Num : Type) (parseFloat : string -> Num) (fetch : nat -> string -> Geo.Response)
    (works : list WorkItem) (st : Geo.State Num) :
  let out := Geo.run Num parseFloat fetch works st in
  sublist (map fst (out.1)) works
  /\ forall r, In r out.1 ->
       In r.1 works /\ Geo.queryOf r.1 <> ""
       /\ Geo.cache Num out.2 !! Geo.queryOf r.1 = Some r.2.
Proof.
  unfold Geo.run. rewrite lookups_hits. simpl. split.
  - etransitivity; [apply hits_sublist | apply addresses_sublist].
  - intros r Hr. destruct (hits_cached Num parseFloat fetch _ _ _ Hr) as (a & Ha & E & Hc).
    destruct (addresses_query works a Ha) as (Hw & Hq & Hne).
    rewrite <- E, <- Hq. auto.
Qed.

Lemma markers_are_cached_hits_in_catalogue_order_witness :
  map (fun r => slug r.1)
      (Geo.run unit (fun _ => tt) oneHit mapWorks (Geo.start unit ∅)).1
  = ["placa"; "mercat"]
  /\ sublist (map fst (Geo.run unit (fun _ => tt) oneHit mapWorks (Geo.start unit ∅)).1)
       mapWorks.
Proof.
  split; [reflexivity|].
  apply (proj1 (markers_are_cached_hits_in_catalogue_order unit (fun _ => tt) oneHit
                  mapWorks (Geo.start unit ∅))).
Defined.

Lemma addresses_length (works : list WorkItem) :
  (length (Geo.addresses works) <= length works)%nat.
Proof.
  unfold Geo.addresses. induction works as [|w works IH]; simpl; [lia|].
  destruct (Js.truthy (Geo.queryOf w)); simpl; lia.
Qed.

(** X17: a run of the map's lookups sends at most one request per work,
    each for the non-empty query of some work and never for a query that
    was in the cache when the run started; when every query is cached at
    the start, it sends none. *)
Theorem run_requests_only_uncached_queries
    (Num : Type) (parseFloat : string -> Num) (fetch : nat -> string -> Geo.Response)
    (works : list WorkItem) (st : Geo.State Num) :
  let st' := (Geo.run Num parseFloat fetch works st).2 in
  (exists sent,
      Geo.requests Num st' = (Geo.requests Num st ++ sent)%list
      /\ (length sent <= length works)%nat
      /\ forall q, In q sent ->
           Geo.cache Num st !! q = None /\ q <> ""
           /\ exists w, In w works /\ q = Geo.queryOf w)
  /\ ((forall w, In w works -> Geo.queryOf w <> "" ->
                 Geo.cache Num st !! Geo.queryOf w <> None) ->
      Geo.requests Num st' = Geo.requests Num st).
Proof.
  unfold Geo.run. rewrite lookups_hits. simpl.
  destruct (after_requests Num parseFloat fetch (Geo.addresses works) st)
    as (sent & Hr & Hl & Hq).
  assert (Hsent : forall q, In q sent ->
            Geo.cache Num st !! q = None /\ q <> ""
            /\ exists w, In w works /\ q = Geo.queryOf w).
  { intros q Hin. destruct (Hq q Hin) as [Hn Hs]. split; [exact Hn|].
    apply in_map_iff in Hs as (a & <- & Ha).
    destruct (addresses_query works a Ha) as (Hw & E & Hne). split; [exact Hne|].
    exists a.1. auto. }
  split.
  - exists sent. split; [exact Hr|]. split; [|exact Hsent].
    pose proof (addresses_length works). lia.
  - intros Hall. rewrite Hr.
    destruct sent as [|q sent]; [apply app_nil_r|]. exfalso.
    destruct (Hsent q (or_introl eq_refl)) as (Hn & Hne & w & Hw & ->).
    exact (Hall w Hw Hne Hn).
Qed.

Lemma run_requests_only_uncached_queries_witness :
  Geo.requests unit (Geo.run unit (fun _ => tt) oneHit mapWorks (Geo.start unit ∅)).2
  = ["Vic"]
  /\ exists sent,
       Geo.requests unit (Geo.run unit (fun _ => tt) oneHit mapWorks (Geo.start unit ∅)).2
       = ([] ++ sent)%list
       /\ (length sent <= length mapWorks)%nat
       /\ forall q, In q sent ->
            (∅ : gmap string (Geo.LatLng unit)) !! q = None /\ q <> ""
            /\ exists w, In w mapWorks /\ q = Geo.queryOf w.
Proof.
  split; [reflexivity|].
  apply (proj1 (run_requests_only_uncached_queries unit (fun _ => tt) oneHit
                  mapWorks (Geo.start unit ∅))).
Defined.

(** *** Grouping the markers *)

Section MarkerFacts.
Variable Num : Type.
Variable groupKey : Geo.LatLng Num -> string.

Local Abbreviation Group := (Markers.Group Num).
Local Abbreviation addResult := (Markers.addResult Num groupKey).
Local Abbreviation groupResults := (Markers.groupResults Num groupKey).

Local Abbreviation itemsAt := (itemsAt Num).
Local Abbreviation sameKey := (sameKey Num groupKey).
Local Abbreviation centred := (centred Num).

Lemma addResult_items (groups : list (string * Group)) (r : WorkItem * Geo.LatLng Num)
    (k : string) :
  itemsAt k (addResult groups r)
  = (itemsAt k groups ++ if sameKey k r then [r] else [])%list.
Proof.
  unfold itemsAt, Markers.addResult, sameKey.
  destruct (String.eqb_spec (groupKey r.2) k) as [<-|Hne].
  - rewrite (get_set_eq _ String.eqb_spec). simpl.
    now destruct (objGet (groupKey r.2) groups).
  - rewrite (get_set_ne _ String.eqb_spec) by assumption. now rewrite app_nil_r.
Qed.

Lemma groups_items (rs : list (WorkItem * Geo.LatLng Num)) (acc : list (string * Group))
    (k : string) :
  itemsAt k (fold_left addResult rs acc)
  = (itemsAt k acc ++ List.filter (sameKey k) rs)%list.
Proof.
  revert acc. induction rs as [|r rs IH]; intros acc; simpl.
  - now rewrite app_nil_r.
  - rewrite IH, addResult_items, <- app_assoc. f_equal. now destruct (sameKey k r).
Qed.

Lemma groups_keys (rs : list (WorkItem * Geo.LatLng Num)) (acc : list (string * Group))
    (k : string) :
  In k (map fst (fold_left addResult rs acc))
  <-> In k (map fst acc) \/ exists r, In r rs /\ groupKey r.2 = k.
Proof.
  revert acc. induction rs as [|r rs IH]; intros acc; simpl.
  - firstorder.
  - rewrite IH. unfold Markers.addResult at 1.
    rewrite (In_keys_set _ String.eqb_spec). split.
    + intros [[->|H]|(r' & Hr' & E)]; eauto.
    + intros [H|(r' & [<-|Hr'] & E)]; eauto.
Qed.

Lemma groups_NoDup (rs : list (WorkItem * Geo.LatLng Num)) :
  List.NoDup (map fst (groupResults rs)).
Proof.
  unfold Markers.groupResults. apply fold_left_invariant; [constructor|].
  intros a r Ha. unfold Markers.addResult. now apply (NoDup_keys_set _ String.eqb_spec).
Qed.

Lemma groups_centred (rs : list (WorkItem * Geo.LatLng Num)) :
  Forall centred (groupResults rs).
Proof.
  unfold Markers.groupResults. apply fold_left_invariant; [constructor|].
  intros a r Ha. unfold Markers.addResult.
  apply (Forall_set _ String.eqb_spec); [exact Ha|].
  destruct (objGet (groupKey r.2) a) as [g|] eqn:Eg; simpl.
  - apply (get_Some_In _ String.eqb_spec) in Eg.
    rewrite List.Forall_forall in Ha. destruct (Ha _ Eg) as (r0 & rest & Hi & Hc).
    simpl in *. exists r0, (rest ++ [r])%list. rewrite Hi. auto.
  - exists r, []. auto.
Qed.
End MarkerFacts.

Lemma flat_map_ext_In {A B : Type} (f g : A -> list B) (l : list A) :
  (forall x, In x l -> f x = g x) -> flat_map f l = flat_map g l.
Proof.
  induction l as [|x l IH]; intros H; simpl; [reflexivity|].
  rewrite (H x) by now left. f_equal. apply IH. intros y Hy. apply H. now right.
Qed.

Lemma filter_all {A : Type} (p : A -> bool) (l : list A) :
  (forall x, In x l -> p x = true) -> List.filter p l = l.
Proof.
  induction l as [|x l IH]; intros H; simpl; [reflexivity|].
  rewrite (H x) by now left. f_equal. apply IH. intros y Hy. apply H. now right.
Qed.

Lemma flat_map_fst {A B C : Type} (f : A -> list C) (l : list (A * B)) :
  flat_map (fun e => f e.1) l = flat_map f (map fst l).
Proof.
  induction l as [|e l IH]; simpl; [reflexivity | now rewrite IH].
Qed.

(** X18: the composite markers partition the results: no two groups have
    the same key, a group holds exactly the results with its key, in
    catalogue order, is never empty and is centred on its first result;
    all groups together are a rearrangement of the results, and a marker
    is 90 wide per item. *)
Theorem marker_groups_partition_results
    (Num : Type) (groupKey : Geo.LatLng Num -> string)
    (results : list (WorkItem * Geo.LatLng Num)) :
  let groups := Markers.groupResults Num groupKey results in
  List.NoDup (map fst groups)
  /\ Permutation (flat_map (fun e => Markers.items Num e.2) groups) results
  /\ forall k g, In (k, g) groups ->
       Markers.items Num g
       = List.filter (fun r => String.eqb (groupKey r.2) k) results
       /\ (exists r rest, Markers.items Num g = r :: rest /\ Markers.center Num g = r.2)
       /\ Markers.totalWidth Num g = 90 * Z.of_nat (length (Markers.items Num g)).
Proof.
  intros groups.
  pose proof (groups_NoDup Num groupKey results) as Hnd. fold groups in Hnd.
  assert (Hitems : forall k g, In (k, g) groups ->
            Markers.items Num g = List.filter (sameKey Num groupKey k) results).
  { intros k g Hin. apply (In_get _ String.eqb_spec _ _ _ Hnd) in Hin.
    pose proof (groups_items Num groupKey results [] k) as H.
    unfold itemsAt in H. fold (Markers.groupResults Num groupKey results) in H.
    fold groups in H. rewrite Hin in H. exact H. }
  split; [exact Hnd|]. split.
  - rewrite (flat_map_ext_In _ (fun e => List.filter (sameKey Num groupKey e.1) results)).
    2:{ intros [k g] Hin. now apply Hitems. }
    rewrite (flat_map_fst (fun k => List.filter (sameKey Num groupKey k) results)).
    rewrite (buckets_partition (fun k r => sameKey Num groupKey k r)).
    + apply Permutation_refl'. apply filter_all.
      intros r Hr. apply existsb_exists. exists (groupKey r.2). split.
      * apply groups_keys. right. eauto.
      * unfold sameKey. apply String.eqb_refl.
    + exact Hnd.
    + intros k k' r. unfold sameKey. rewrite !String.eqb_eq. congruence.
  - intros k g Hin.
    pose proof (groups_centred Num groupKey results) as Hc. fold groups in Hc.
    rewrite List.Forall_forall in Hc. specialize (Hc _ Hin).
    split; [now apply Hitems|]. split; [exact Hc|].
    destruct Hc as (r & rest & Hi & _). simpl in Hi.
    unfold Markers.totalWidth. rewrite Hi. simpl length. lia.
Qed.

(** ** More properties of the drawer, the carousel and the shell *)

Lemma next_previous (n i : Z) : 0 <= i < n -> Carousel.previous n (Carousel.next n i) = i.
Proof.
  intros Hi. unfold Carousel.next, Carousel.previous.
  destruct (Z.eq_dec i (n - 1)) as [->|Hne].
  - replace (n - 1 + 1) with n by lia. rewrite Z.rem_same by lia.
    replace (0 - 1 + n) with (n - 1) by lia. apply Z.rem_small. lia.
  - rewrite (Z.rem_small (i + 1)) by lia.
    replace (i + 1 - 1 + n) with (i + 1 * n) by lia.
    rewrite Z.rem_add by nia. apply Z.rem_small. lia.
Qed.

Lemma previous_next (n i : Z) : 0 <= i < n -> Carousel.next n (Carousel.previous n i) = i.
Proof.
  intros Hi. unfold Carousel.next, Carousel.previous.
  destruct (Z.eq_dec i 0) as [->|Hne].
  - replace (0 - 1 + n) with (n - 1) by lia. rewrite (Z.rem_small (n - 1)) by lia.
    replace (n - 1 + 1) with n by lia. apply Z.rem_same. lia.
  - replace (i - 1 + n) with (i - 1 + 1 * n) by lia.
    rewrite Z.rem_add by nia. rewrite (Z.rem_small (i - 1)) by lia.
    replace (i - 1 + 1) with i by lia. apply Z.rem_small. lia.
Qed.

Lemma next_iter (n i : Z) (k : nat) :
  0 <= i < n -> Nat.iter k (Carousel.next n) i = (i + Z.of_nat k) mod n.
Proof.
  intros Hi. induction k as [|k IH].
  - simpl. rewrite Z.add_0_r. symmetry. apply Z.mod_small. lia.
  - rewrite Nat.iter_succ, IH. unfold Carousel.next.
    rewrite Z.rem_mod_nonneg by (pose proof (Z.mod_pos_bound (i + Z.of_nat k) n); lia).
    rewrite Zplus_mod_idemp_l. f_equal. lia.
Qed.

Lemma setCurrentImageIndex_id (f : Z -> Z) (st : Carousel.State) :
  f (Carousel.currentImageIndex st) = Carousel.currentImageIndex st ->
  Carousel.setCurrentImageIndex f st = st.
Proof. destruct st as [s i]. unfold Carousel.setCurrentImageIndex. simpl. now intros ->. Qed.

Lemma selected_setCurrentImageIndex (works : list WorkItem) (f : Z -> Z)
    (st : Carousel.State) :
  Carousel.selected works (Carousel.setCurrentImageIndex f st) = Carousel.selected works st.
Proof. reflexivity. Qed.

Lemma run_index_range (works : list WorkItem) (evs : list Carousel.Event) (w : WorkItem) :
  Carousel.selected works (Carousel.run works evs) = Some w ->
  0 < Carousel.albumLength w ->
  0 <= Carousel.currentImageIndex (Carousel.run works evs) < Carousel.albumLength w.
Proof.
  intros Hsel Hn. destruct (carouselInv_run works evs) as [H0 [Hz|(w' & Hw' & Hlt)]].
  - lia.
  - rewrite Hsel in Hw'. injection Hw' as <-. lia.
Qed.

(** X19: in the carousel, going to the next image and back, or to the
    previous image and forth, returns to the same state, by the arrow
    keys and by the buttons; and from an index of the album, as many
    next-steps as the album has images lead back to that index. *)
Theorem carousel_steps_undo_each_other (works : list WorkItem) (evs : list Carousel.Event) :
  let st := Carousel.run works evs in
  Carousel.step works (Carousel.step works st Carousel.ArrowRight) Carousel.ArrowLeft = st
  /\ Carousel.step works (Carousel.step works st Carousel.ArrowLeft) Carousel.ArrowRight = st
  /\ Carousel.step works (Carousel.step works st Carousel.ClickNext) Carousel.ClickPrevious = st
  /\ Carousel.step works (Carousel.step works st Carousel.ClickPrevious) Carousel.ClickNext = st
  /\ forall n i, 0 <= i < n -> Nat.iter (Z.to_nat n) (Carousel.next n) i = i.
Proof.
  intros st.
  assert (Hmove : forall f g,
            (forall n i, 0 <= i < n -> g n (f n i) = i) ->
            forall w, Carousel.selected works st = Some w -> 0 < Carousel.albumLength w ->
            Carousel.setCurrentImageIndex (g (Carousel.albumLength w))
              (Carousel.setCurrentImageIndex (f (Carousel.albumLength w)) st) = st).
  { intros f g Hfg w Hsel Hn. pose proof (run_index_range works evs w Hsel Hn) as Hr.
    fold st in Hr. destruct st as [s i]. unfold Carousel.setCurrentImageIndex. simpl in *.
    now rewrite Hfg. }
  repeat split.
  - simpl. destruct (Carousel.selected works st) as [w|] eqn:Hsel; simpl; [|now rewrite Hsel].
    destruct (Z.eqb_spec (Carousel.albumLength w) 0) as [E|E]; simpl.
    + rewrite Hsel. apply Z.eqb_eq in E. now rewrite E.
    + rewrite selected_setCurrentImageIndex, Hsel.
      apply Z.eqb_neq in E as E'. rewrite E'.
      apply (Hmove Carousel.next Carousel.previous next_previous w eq_refl).
      now apply albumLength_pos.
  - simpl. destruct (Carousel.selected works st) as [w|] eqn:Hsel; simpl; [|now rewrite Hsel].
    destruct (Z.eqb_spec (Carousel.albumLength w) 0) as [E|E]; simpl.
    + rewrite Hsel. apply Z.eqb_eq in E. now rewrite E.
    + rewrite selected_setCurrentImageIndex, Hsel.
      apply Z.eqb_neq in E as E'. rewrite E'.
      apply (Hmove Carousel.previous Carousel.next previous_next w eq_refl).
      now apply albumLength_pos.
  - simpl. destruct (Carousel.selected works st) as [w|] eqn:Hsel; simpl; [|now rewrite Hsel].
    destruct (Z.ltb_spec 1 (Carousel.albumLength w)) as [E|E]; simpl.
    + rewrite selected_setCurrentImageIndex, Hsel.
      apply Z.ltb_lt in E as E'. rewrite E'.
      apply (Hmove Carousel.next Carousel.previous next_previous w eq_refl). lia.
    + rewrite Hsel. apply Z.ltb_ge in E. now rewrite E.
  - simpl. destruct (Carousel.selected works st) as [w|] eqn:Hsel; simpl; [|now rewrite Hsel].
    destruct (Z.ltb_spec 1 (Carousel.albumLength w)) as [E|E]; simpl.
    + rewrite selected_setCurrentImageIndex, Hsel.
      apply Z.ltb_lt in E as E'. rewrite E'.
      apply (Hmove Carousel.previous Carousel.next previous_next w eq_refl). lia.
    + rewrite Hsel. apply Z.ltb_ge in E. now rewrite E.
  - intros n i Hi. rewrite next_iter by exact Hi.
    rewrite Z2Nat.id by lia. replace (i + n) with (i + 1 * n) by lia.
    rewrite Z.mod_add by lia. apply Z.mod_small. lia.
Qed.

Lemma carousel_steps_undo_each_other_witness :
  Nat.iter (Z.to_nat 3) (Carousel.next 3) 1 = 1.
Proof.
  apply (carousel_steps_undo_each_other [sampleGat] [Carousel.Select "gat"]). lia.
Defined.

Lemma selectedSlug_from_cards (works : list WorkItem) (evs : list Carousel.Event) :
  Forall (Drawer.fromCards works) evs ->
  forall s, Carousel.selectedSlug (Carousel.run works evs) = Some s ->
            In s (map slug works).
Proof.
  intros Hevs. unfold Carousel.run.
  cut (forall st, (forall s, Carousel.selectedSlug st = Some s -> In s (map slug works)) ->
                  forall s, Carousel.selectedSlug (fold_left (Carousel.step works) evs st) = Some s ->
                            In s (map slug works)).
  { intros H. apply H. discriminate. }
  induction Hevs as [|ev evs Hev Hevs IH]; intros st Hst; simpl; [exact Hst|].
  apply IH. intros s.
  destruct ev; simpl; unfold Carousel.setSelectedSlug;
    repeat match goal with
           | |- context [decide ?P] => destruct (decide P)
           | |- context [Carousel.selected works st] =>
               destruct (Carousel.selected works st)
           | |- context [if ?b then _ else _] => destruct b
           end; simpl; auto; try discriminate.
  intros [= <-]. exact Hev.
Qed.

(** X20: as long as selections come from the cards of the works, and no
    work has an empty slug, the drawer is open exactly when the modal
    flag reported to the application is set, and the item it shows is the
    one with the selected slug. *)
Theorem drawer_open_iff_modal_flag (works : list WorkItem) (evs : list Carousel.Event) :
  (forall w, In w works -> slug w <> "") ->
  Forall (Drawer.fromCards works) evs ->
  let st := Carousel.run works evs in
  Drawer.drawerOpen works st = Drawer.isModalOpen st
  /\ forall w, Carousel.selected works st = Some w ->
               In w works /\ Carousel.selectedSlug st = Some (slug w).
Proof.
  intros Hslugs Hevs st.
  pose proof (selectedSlug_from_cards works evs Hevs) as Hsel. fold st in Hsel.
  unfold Drawer.drawerOpen, Drawer.isModalOpen, Carousel.selected.
  destruct (Carousel.selectedSlug st) as [s|]; simpl; [|split; [reflexivity | discriminate]].
  specialize (Hsel s eq_refl). apply in_map_iff in Hsel as (w0 & <- & Hw0).
  destruct (List.find (fun w => String.eqb (slug w) (slug w0)) works) as [w|] eqn:Ef.
  - apply find_some in Ef as [Hw E]. apply String.eqb_eq in E. split.
    + unfold Js.truthy. specialize (Hslugs w0 Hw0). apply String.eqb_neq in Hslugs.
      now rewrite Hslugs.
    + intros w' [= <-]. split; [exact Hw | now rewrite E].
  - exfalso. pose proof (find_none _ _ Ef w0 Hw0) as H. simpl in H.
    now rewrite String.eqb_refl in H.
Qed.

Lemma drawer_open_iff_modal_flag_witness :
  Drawer.drawerOpen [sampleGat] (Carousel.run [sampleGat] [Carousel.Select "gat"])
  = Drawer.isModalOpen (Carousel.run [sampleGat] [Carousel.Select "gat"]).
Proof.
  apply (drawer_open_iff_modal_flag [sampleGat] [Carousel.Select "gat"]).
  - intros w [<-|[]]. discriminate.
  - repeat constructor.
Defined.

(** *** The application shell *)

Lemma scrollInv_homeEffect (st : App.State) : scrollInv (App.homeEffect st).
Proof.
  unfold scrollInv, App.homeEffect, App.isHome.
  destruct (String.eqb (App.pathname st) "/") eqn:E; simpl; now rewrite E.
Qed.

Lemma scrollInv_step (st : App.State) (ev : App.Event) :
  scrollInv st -> scrollInv (App.step st ev).
Proof.
  assert (Hnav : forall to st, scrollInv st -> scrollInv (App.navigate to st)).
  { intros to s Hs. unfold App.navigate.
    destruct (Bool.eqb _ _) eqn:Eh; [|apply scrollInv_homeEffect].
    apply Bool.eqb_prop in Eh. unfold scrollInv in *.
    destruct (String.eqb (App.pathname s) to); simpl in *;
      unfold App.isHome in *; simpl in *; now rewrite <- Eh. }
  intros Hs. destruct ev as [to|to|y| |l|b].
  - apply Hnav. exact Hs.
  - apply Hnav. exact Hs.
  - unfold scrollInv in *. simpl.
    destruct (App.isHome st) eqn:E; unfold App.isHome in *; simpl; rewrite E; simpl.
    + reflexivity.
    + exact Hs.
  - exact Hs.
  - exact Hs.
  - exact Hs.
Qed.

(** X21: whatever the user does, the scrolled flag of the navigation bar
    is set exactly when the current page is the home page and the window
    is scrolled beyond 20 pixels, so the bar's style is a function of the
    current path and scroll position; a link of the mobile menu, and any
    navigation to another path, leaves the mobile menu closed. *)
Theorem nav_style_follows_path_and_scroll (path : string) (y : Z) (evs : list App.Event) :
  let st := App.run path y evs in
  App.isScrolled st = String.eqb (App.pathname st) "/" && (20 <? App.scrollY st)
  /\ App.navVariant st
     = (if String.eqb (App.pathname st) "/"
        then (if 20 <? App.scrollY st then "nav-home scrolled" else "nav-home top")
        else "nav-solid")
  /\ (forall to, App.isMobileMenuOpen (App.step st (App.MobileLink to)) = false)
  /\ (forall to, to <> App.pathname st ->
                 App.isMobileMenuOpen (App.step st (App.Navigate to)) = false).
Proof.
  intros st.
  assert (Hinv : scrollInv st).
  { unfold st, App.run. apply fold_left_invariant.
    - apply scrollInv_homeEffect.
    - intros a ev. apply scrollInv_step. }
  split; [exact Hinv|]. split; [|split].
  - unfold App.navVariant. rewrite Hinv. unfold App.isHome.
    now destruct (String.eqb (App.pathname st) "/").
  - intros to. simpl. unfold App.navigate, App.homeEffect. simpl.
    repeat match goal with |- context [if ?b then _ else _] => destruct b end; reflexivity.
  - intros to Hne. simpl. unfold App.navigate, App.homeEffect.
    destruct (String.eqb_spec (App.pathname st) to) as [E|E]; [congruence|]. simpl.
    repeat match goal with |- context [if ?b then _ else _] => destruct b end; reflexivity.
Qed.

Lemma nav_style_follows_path_and_scroll_witness :
  App.isMobileMenuOpen
    (App.step (App.run "/obra" 0 [App.ToggleMobileMenu]) (App.Navigate "/")) = false.
Proof.
  apply (nav_style_follows_path_and_scroll "/obra" 0 [App.ToggleMobileMenu]).
  discriminate.
Defined.

(** *** The workshop album *)

Lemma StronglySorted_map {A B : Type} (f : A -> B) (R : B -> B -> Prop) (l : list A) :
  StronglySorted (fun a b => R (f a) (f b)) l -> StronglySorted R (map f l).
Proof.
  induction 1 as [|x l Hs IH Hx]; simpl; constructor; [exact IH|].
  apply Forall_map. exact Hx.
Qed.

(** X22: the album of the workshop page shows each globbed picture once,
    in the collation order of the module paths. *)
Theorem workshop_album_sorted_by_path
    (localeCompare : string -> string -> Z)
    (lc_total : forall a b, 0 < localeCompare a b -> localeCompare b a <= 0)
    (lc_trans : forall a b c,
        localeCompare a b <= 0 -> localeCompare b c <= 0 -> localeCompare a c <= 0)
    (modules : Obj string) :
  exists es,
    Permutation es modules
    /\ ElTaller.albumImages localeCompare modules = map snd es
    /\ StronglySorted (collatesLe localeCompare) (map fst es).
Proof.
  exists (Js.sort (fun a b => localeCompare a.1 b.1) (Js.entries modules)).
  split; [|split].
  - rewrite sort_Permutation. apply entries_Permutation.
  - reflexivity.
  - apply StronglySorted_map.
    apply (sort_StronglySorted (fun a b : string * string => localeCompare a.1 b.1)).
    + intros a b. apply lc_total.
    + intros a b c. apply lc_trans.
Qed.

Lemma workshop_album_sorted_by_path_witness :
  ElTaller.albumImages codeUnitCompare
    [("../../fotos_generals/eltaller/b.jpg", "/assets/b.jpg");
     ("../../fotos_generals/eltaller/a.png", "/assets/a.png")]
  = ["/assets/a.png"; "/assets/b.jpg"]
  /\ exists es,
       Permutation es [("../../fotos_generals/eltaller/b.jpg", "/assets/b.jpg");
                       ("../../fotos_generals/eltaller/a.png", "/assets/a.png")]
       /\ ElTaller.albumImages codeUnitCompare
            [("../../fotos_generals/eltaller/b.jpg", "/assets/b.jpg");
             ("../../fotos_generals/eltaller/a.png", "/assets/a.png")] = map snd es
       /\ StronglySorted (collatesLe codeUnitCompare) (map fst es).
Proof.
  split; [reflexivity|].
  apply (workshop_album_sorted_by_path codeUnitCompare
           codeUnitCompare_total codeUnitCompare_trans).
Defined.

(** *** The tags of the album sort *)

(** X23: tagging a URL with a file name and reading the tag back is a
    round trip when neither contains the separator: the tag of
    [url#name] is the name and stripping the tag gives back the URL; a
    URL without ['#'] is given back whatever the name is. *)
Theorem tagged_url_round_trip (url fileName : string) :
  noHash url ->
  untag (tagUrl url fileName) = url
  /\ (noHash fileName -> tagOf (tagUrl url fileName) = fileName).
Proof.
  intros Hu. split; [now apply untag_tagUrl|]. intros Hf. now apply tagOf_tagUrl.
Qed.

Lemma tagged_url_round_trip_witness :
  untag (tagUrl "/assets/a.jpg" "a.jpg") = "/assets/a.jpg"
  /\ tagOf (tagUrl "/assets/a.jpg" "a.jpg") = "a.jpg".
Proof.
  destruct (tagged_url_round_trip "/assets/a.jpg" "a.jpg") as [H1 H2]; [reflexivity|].
  split; [exact H1 | apply H2; reflexivity].
Defined.
